(** * UNIONFILES archive extractor: a shallow embedding of [uni_extract.py]

    The development follows the source file top-down: constants, the name
    decoder [read_cstring], the path validator [looks_like_valid_path],
    the sanitizer [sanitize_filename], and [extract] with its two loops
    (directory parsing, then payload extraction).

    Python [bytes] are lists of [Byte.byte]; Python [str] values are lists
    of Unicode code points; the read cursor of the archive handle is a
    natural number threaded explicitly through the reads and seeks. *)

From Stdlib Require Import List Bool Arith NArith ZArith Lia.
From Stdlib.Strings Require Import Ascii String Byte.
Import ListNotations.
Local Open Scope list_scope.

Set Implicit Arguments.

(** ** Text and bytes *)

(** A code point, [ord c] in the source. *)
Definition char := N.

(** A Python [str]. *)
Definition str := list char.

Definition bytes := list byte.

Definition ord_ascii (a : ascii) : char := N_of_ascii a.

(** Literal text of the source, written as a Rocq string. *)
Definition lit (s : string) : str := map ord_ascii (list_ascii_of_string s).

(** Literal [b"..."] of the source. *)
Definition blit (s : string) : bytes := list_byte_of_string s.

Fixpoint list_eqb {A} (eqb : A -> A -> bool) (xs ys : list A) : bool :=
  match xs, ys with
  | [], [] => true
  | x :: xs', y :: ys' => eqb x y && list_eqb eqb xs' ys'
  | _, _ => false
  end.

Definition bytes_eqb : bytes -> bytes -> bool := list_eqb Byte.eqb.

(** [s.startswith(p)] and, on bytes, the test behind [bs.find]. *)
Fixpoint starts_with {A} (eqb : A -> A -> bool) (p s : list A) : bool :=
  match p, s with
  | [], _ => true
  | x :: p', y :: s' => eqb x y && starts_with eqb p' s'
  | _ :: _, [] => false
  end.

(** [hay.find(needle)]: index of the first occurrence, [None] for -1. *)
Fixpoint bytes_find (needle hay : bytes) : option nat :=
  if starts_with Byte.eqb needle hay then Some 0
  else match hay with
       | [] => None
       | _ :: hay' => option_map S (bytes_find needle hay')
       end.

(** ** Module constants *)

Definition FIXED_PATH_LEN : nat := 256.
Definition HEADER_MAGIC : bytes := blit "UNIONFILES".
Definition START_OFFSET : nat := 16.
Definition UEND : bytes := blit "UEND".

(** ** Name decoder

    [read_cstring] cuts the slot at its first zero byte and hands the rest
    to the [shift_jis] codec with [errors='ignore'].  The codec is the
    interpreter's, not this program's: it is a parameter of the
    development ([decode] below). *)

(** [bs[:i]] for [i = bs.find(b'\x00')], or all of [bs] when there is none. *)
Fixpoint until_nul (bs : bytes) : bytes :=
  match bs with
  | [] => []
  | b :: bs' => if Byte.eqb b x00 then [] else b :: until_nul bs'
  end.

Definition read_cstring (decode : bytes -> str) (bs : bytes) : str :=
  decode (until_nul bs).

(** ** Path validator *)

Definition mem_char (c : char) (s : str) : bool := existsb (N.eqb c) s.

Definition looks_like_valid_path (name : str) : bool :=
  match name with
  | [] => false
  | _ =>
    if List.length name <? 3 then false
    else if existsb (fun c => mem_char c name) [0; 1; 2; 3]%N then false
    else if forallb (fun c => (c <? 32)%N) name then false
    else if starts_with N.eqb (lit "BM") name then false
    else true
  end.

(** ** Filename sanitizer *)

(** [os.sep] is the slash on POSIX systems and the backslash on Windows. *)
Inductive platform := Posix | Windows.

Definition backslash : char := 92%N.
Definition slash : char := 47%N.
Definition underscore : char := 95%N.

Definition os_sep (p : platform) : char :=
  match p with Posix => slash | Windows => backslash end.

(** [s.replace(a, b)] for one-character [a] and [b]. *)
Definition replace_char (a b : char) (s : str) : str :=
  map (fun c => if N.eqb c a then b else c) s.

(** [s.lstrip(c)] for a one-character [c]. *)
Fixpoint lstrip (c : char) (s : str) : str :=
  match s with
  | [] => []
  | x :: s' => if N.eqb x c then lstrip c s' else s
  end.

(** The character class of the source's regular expression: the nine
    characters less-than, greater-than, colon, double quote, slash,
    backslash, bar, question mark, star, and the range 0x00-0x1f. *)
Definition illegal_char (c : char) : bool :=
  existsb (N.eqb c) [60; 62; 58; 34; 47; 92; 124; 63; 42]%N || (c <=? 31)%N.

(** [re.sub(class, '_', s)]. *)
Definition sub_illegal (s : str) : str :=
  map (fun c => if illegal_char c then underscore else c) s.

Definition sanitize_filename (p : platform) (name : str) : str :=
  let name := lstrip (os_sep p) (replace_char backslash (os_sep p) name) in
  let name := sub_illegal name in
  firstn 200 name.

(** ** The archive file handle

    The archive is opened once for reading; its contents [f] never change
    and only the cursor moves. *)

(** [errno] carried by an [OSError]. *)
Definition errno := N.

Inductive exn :=
| StructError
| OSError (e : errno).

Definition EINVAL : errno := 22%N.

(** The slice [f[p : p + n]]: shorter than [n] near the end of [f], empty
    past it. *)
Definition slice (f : bytes) (p n : nat) : bytes := firstn n (skipn p f).

(** [f.read(n)] at cursor [pos]: the bytes returned and the new cursor.  A
    read near the end of the file returns fewer bytes, possibly none. *)
Definition f_read (f : bytes) (n pos : nat) : bytes * nat :=
  let data := slice f pos n in
  (data, pos + List.length data).

(** [f.seek(delta, 1)]: a cursor before the start of the file is refused. *)
Definition f_seek_cur (delta : Z) (pos : nat) : exn + nat :=
  let target := (Z.of_nat pos + delta)%Z in
  if (target <? 0)%Z then inl (OSError EINVAL) else inr (Z.to_nat target).

(** One little-endian unsigned 32-bit integer. *)
Definition le32 (b0 b1 b2 b3 : byte) : N :=
  (Byte.to_N b0 + 256 * Byte.to_N b1 + 65536 * Byte.to_N b2
   + 16777216 * Byte.to_N b3)%N.

(** [struct.unpack("<II", data)]: raises unless [data] has exactly 8 bytes. *)
Definition struct_unpack_II (data : bytes) : exn + (N * N) :=
  match data with
  | [a0; a1; a2; a3; b0; b1; b2; b3] =>
      inr (le32 a0 a1 a2 a3, le32 b0 b1 b2 b3)
  | _ => inl StructError
  end.

(** ** Directory entries and log lines *)

Record entry := Entry { name : str; offset : N; size : N }.

(** The lines the program prints, one constructor per [print] call. *)
Inductive log_line :=
| LogDirectoryEnd (nm : str)
| LogFound (count : nat)
| LogSkipEmpty (nm : str)
| LogSkipInvalid (nm : str)
| LogOk (safe_name : str) (sz : N)
| LogFailed (safe_name : str) (e : errno).

(** ** Directory parser: the [while True] loop of [extract] *)

(** What one pass through the loop body does. *)
Inductive pass :=
| Break (printed : list log_line)
| Append (e : entry) (pos : nat)
| Raise (x : exn).

Section Parser.

(** [bs.decode('shift_jis', errors='ignore')]. *)
Variable decode : bytes -> str.

Definition loop_body (f : bytes) (pos : nat) : pass :=
  let '(chunk, pos) := f_read f FIXED_PATH_LEN pos in
  if (List.length chunk =? 0) || (List.length chunk <? FIXED_PATH_LEN)
  then Break []
  else
    let nm := read_cstring decode chunk in
    if negb (looks_like_valid_path nm) then Break [LogDirectoryEnd nm]
    else
      let '(data, pos) := f_read f 8 pos in
      if List.length data <? 8 then Break []
      else
        match struct_unpack_II data with
        | inl x => Raise x
        | inr (off, sz) =>
            let '(uend, pos) := f_read f 4 pos in
            let sought :=
              if negb (bytes_eqb uend UEND) then f_seek_cur (-4) pos
              else inr pos in
            match sought with
            | inl x => Raise x
            | inr pos => Append (Entry nm off sz) pos
            end
        end.

(** The loop itself.  [None] means the fuel ran out before the loop
    left; [Some (inl x)] that exception [x] escaped the loop. *)
Fixpoint read_records (fuel : nat) (f : bytes) (pos : nat)
    (entries : list entry) : option (exn + list entry * list log_line) :=
  match fuel with
  | O => None
  | S fuel' =>
      match loop_body f pos with
      | Break printed => Some (inr (entries, printed))
      | Raise x => Some (inl x)
      | Append e pos' => read_records fuel' f pos' (entries ++ [e])
      end
  end.

(** The directory table of an archive: the loop run from
    [START_OFFSET] with an empty table. *)
Definition parse_directory (f : bytes) :
    option (exn + list entry * list log_line) :=
  read_records (S (List.length f)) f START_OFFSET [].

End Parser.

(** ** Extractor

    The output side of [extract] calls into the operating system:
    [os.path.join], [os.path.dirname], [os.makedirs(..., exist_ok=True)]
    and [open(path, "wb")] followed by [write].  A [host] packs them, with
    the filesystem as an explicit state; each fallible call returns the
    filesystem it leaves and the [errno] of the [OSError] it raised, if
    any. *)

Record host := Host {
  os : platform;
  FS : Type;
  path_join : str -> str -> str;
  path_dirname : str -> str;
  makedirs : str -> FS -> FS * option errno;
  write_file : str -> bytes -> FS -> FS * option errno
}.

(** How a run ends: normally, by [raise SystemExit(...)], or by an
    exception nobody caught. *)
Inductive status :=
| Finished
| SystemExit
| Uncaught (x : exn).

(** The exit status of the process. *)
Definition exit_code (s : status) : N :=
  match s with Finished => 0%N | SystemExit | Uncaught _ => 1%N end.

Record run (h : host) := Run {
  run_status : status;
  run_fs : FS h;
  run_log : list log_line
}.

Section Extractor.

Variable h : host.
Variable decode : bytes -> str.

(** [f.seek(offset); data = f.read(size)]. *)
Definition payload (f : bytes) (e : entry) : bytes :=
  fst (f_read f (N.to_nat (size e)) (N.to_nat (offset e))).

(** The [try] block: open the output file and write the payload; an
    [OSError] from either is caught and printed. *)
Definition write_entry (out_path safe_name : str) (data : bytes) (sz : N)
    (fs : FS h) : FS h * log_line :=
  match write_file h out_path data fs with
  | (fs', None) => (fs', LogOk safe_name sz)
  | (fs', Some err) => (fs', LogFailed safe_name err)
  end.

(** The [for name, offset, size in entries] loop. *)
Fixpoint extract_entries (out_dir : str) (f : bytes) (entries : list entry)
    (fs : FS h) (log : list log_line) : run h :=
  match entries with
  | [] => Run h Finished fs log
  | e :: rest =>
      if (offset e =? 0)%N || (size e =? 0)%N
      then extract_entries out_dir f rest fs (log ++ [LogSkipEmpty (name e)])
      else
        let safe_name := sanitize_filename (os h) (name e) in
        match safe_name with
        | [] =>
            extract_entries out_dir f rest fs
              (log ++ [LogSkipInvalid (name e)])
        | _ :: _ =>
            let out_path := path_join h out_dir safe_name in
            match makedirs h (path_dirname h out_path) fs with
            | (fs1, Some err) => Run h (Uncaught (OSError err)) fs1 log
            | (fs1, None) =>
                let data := payload f e in
                let '(fs2, line) :=
                  write_entry out_path safe_name data (size e) fs1 in
                extract_entries out_dir f rest fs2 (log ++ [line])
            end
        end
  end.

(** The magic check at the head of the [with] block: the cursor it
    leaves, or [None] when it raises [SystemExit]. *)
Definition locate_magic (f : bytes) : option nat :=
  let '(magic, pos) := f_read f (List.length HEADER_MAGIC) 0 in
  if negb (bytes_eqb magic HEADER_MAGIC) then
    let '(peek, _) := f_read f 64 0 in
    match bytes_find HEADER_MAGIC peek with
    | None => None
    | Some i => Some i
    end
  else Some pos.

(** The body of [with open(input_file, "rb") as f].  The cursor found by
    the magic check is overwritten by [f.seek(START_OFFSET)], from where
    [parse_directory] starts. *)
Definition extract_opened (f : bytes) (out_dir : str) (fs : FS h) :
    option (run h) :=
  match locate_magic f with
  | None => Some (Run h SystemExit fs [])
  | Some _ =>
      match parse_directory decode f with
      | None => None
      | Some (inl x) => Some (Run h (Uncaught x) fs [])
      | Some (inr (entries, printed)) =>
          Some (extract_entries out_dir f entries fs
                  (printed ++ [LogFound (List.length entries)]))
      end
  end.

(** [extract(input_file, out_dir)] on an archive with contents [f]. *)
Definition extract (f : bytes) (out_dir : str) (fs : FS h) :
    option (run h) :=
  match makedirs h out_dir fs with
  | (fs0, Some err) => Some (Run h (Uncaught (OSError err)) fs0 [])
  | (fs0, None) => extract_opened f out_dir fs0
  end.

End Extractor.

(** ** Command line

    The [__main__] block: with no argument it prints the usage line and
    calls [sys.exit(1)]; otherwise it calls [extract] on the first
    argument, with the second argument as output directory or [output]
    when there is none.  [open_rb] is [open(path, "rb")] followed by the
    reads: the contents of the file, or the [errno] of the [OSError]. *)

Inductive main_outcome (h : host) :=
| MainUsage
| MainRan (r : run h).

Definition main_exit_code (h : host) (o : main_outcome h) : N :=
  match o with
  | MainUsage _ => 1%N
  | MainRan r => exit_code (run_status r)
  end.

(** [extract(input_file, out_dir)] on a path: the output directory is
    made before the archive is opened. *)
Definition extract_path (h : host) (decode : bytes -> str)
    (open_rb : str -> errno + bytes) (input_file out_dir : str) (fs : FS h) :
    option (run h) :=
  match makedirs h out_dir fs with
  | (fs0, Some err) => Some (Run h (Uncaught (OSError err)) fs0 [])
  | (fs0, None) =>
      match open_rb input_file with
      | inl err => Some (Run h (Uncaught (OSError err)) fs0 [])
      | inr f => extract_opened h decode f out_dir fs0
      end
  end.

(** [argv] is [sys.argv], the program's own name first. *)
Definition main (h : host) (decode : bytes -> str)
    (open_rb : str -> errno + bytes) (argv : list str) (fs : FS h) :
    option (main_outcome h) :=
  if List.length argv <? 2 then Some (MainUsage h)
  else
    let infile := nth 1 argv [] in
    let outdir := if List.length argv <? 3 then lit "output"
                  else nth 2 argv [] in
    option_map (@MainRan h) (extract_path h decode open_rb infile outdir fs).

(** ** Hosts, codecs and archives to run the model on *)

(** A stand-in for the codec that is exact on 7-bit input: a byte below
    0x80 decodes to the code point of the same value, any other byte is
    ignored. *)
Definition seven_bit_codec (bs : bytes) : str :=
  flat_map (fun b => if (Byte.to_N b <? 128)%N then [Byte.to_N b] else []) bs.

(** An in-memory filesystem: the directories made, the files written
    (latest first), and the number of calls served so far. *)
Record memfs := MemFS {
  clock : nat;
  dirs : list str;
  files : list (str * bytes)
}.

Definition empty_fs : memfs := MemFS 0 [] [].

Fixpoint file_at (fl : list (str * bytes)) (p : str) : option bytes :=
  match fl with
  | [] => None
  | (q, d) :: fl' => if list_eqb N.eqb q p then Some d else file_at fl' p
  end.

Definition posix_join (a b : str) : str := a ++ [slash] ++ b.

Fixpoint after_slash (s : str) : str :=
  match s with
  | [] => []
  | c :: s' => if N.eqb c slash then s' else after_slash s'
  end.

Definition posix_dirname (p : str) : str := rev (after_slash (rev p)).

(** A host over [memfs].  [mkdir_fault] and [write_fault] say, by the
    number of calls served before it, which call fails and with which
    [errno]; a failed call leaves directories and files as they were. *)
Definition mem_host (mkdir_fault write_fault : nat -> option errno) : host :=
  {| os := Posix;
     FS := memfs;
     path_join := posix_join;
     path_dirname := posix_dirname;
     makedirs := fun p fs =>
       match mkdir_fault (clock fs) with
       | Some e => (MemFS (S (clock fs)) (dirs fs) (files fs), Some e)
       | None => (MemFS (S (clock fs)) (p :: dirs fs) (files fs), None)
       end;
     write_file := fun p d fs =>
       match write_fault (clock fs) with
       | Some e => (MemFS (S (clock fs)) (dirs fs) (files fs), Some e)
       | None => (MemFS (S (clock fs)) (dirs fs) ((p, d) :: files fs), None)
       end |}.

Definition no_fault : nat -> option errno := fun _ => None.

Definition EIO : errno := 5%N.

(** The call numbered [k] fails with [EIO]. *)
Definition fault_at (k : nat) : nat -> option errno :=
  fun n => if n =? k then Some EIO else None.

Definition byte_of_N (n : N) : byte :=
  match Byte.of_N (n mod 256) with Some b => b | None => x00 end.

(** [struct.pack("<I", n)]. *)
Definition pack_u32 (n : N) : bytes :=
  map byte_of_N [n; n / 256; n / 65536; n / 16777216]%N.

(** A name slot: the text, a zero byte, zero padding up to 256 bytes. *)
Definition slot_of (s : string) : bytes :=
  blit s ++ repeat x00 (FIXED_PATH_LEN - String.length s).

Definition record_of (s : string) (off sz : N) : bytes :=
  slot_of s ++ pack_u32 off ++ pack_u32 sz.

Definition header : bytes := HEADER_MAGIC ++ repeat x00 6.

(** One record [a.bin] whose three payload bytes follow the directory. *)
Definition one_file_archive : bytes :=
  header ++ record_of "a.bin" 280 3 ++ blit "xyz".

(** The same archive with a size field of zero. *)
Definition zero_size_archive : bytes :=
  header ++ record_of "a.bin" 280 0 ++ blit "xyz".

(** Two records, the first followed by the [UEND] tag, the second not. *)
Definition two_file_archive : bytes :=
  header ++ record_of "a.bin" 548 3 ++ UEND
         ++ record_of "dir\b.txt" 551 5 ++ blit "xyzhello".

(** A file of the right size with no magic in it. *)
Definition no_magic_archive : bytes :=
  repeat x00 16 ++ record_of "a.bin" 280 3 ++ blit "xyz".

(** One record whose offset lies past the end of the archive. *)
Definition past_end_archive : bytes :=
  header ++ record_of "a.bin" 9999 3.

(** One record followed by a slot of zero bytes. *)
Definition zero_padded_archive : bytes :=
  header ++ record_of "a.bin" 280 3 ++ repeat x00 256.

(** Two records with no tag between them, then the payloads. *)
Definition untagged_archive : bytes :=
  header ++ record_of "a.bin" 544 3
         ++ record_of "dir\b.txt" 547 5 ++ blit "xyzhello".

(** A 16-byte header with the magic three bytes in. *)
Definition shifted_magic_header : bytes :=
  repeat x00 3 ++ HEADER_MAGIC ++ repeat x00 3.

(** ** Vocabulary of the statements *)

(** [needle in hay]. *)
Definition occurs_in (needle hay : bytes) : Prop :=
  exists pre post, hay = pre ++ needle ++ post.

(** [xs] is an initial segment of [ys]. *)
Definition prefix_of {A} (xs ys : list A) : Prop :=
  exists more, ys = xs ++ more.

(** Where the cursor stands after a record that started at [pos]: past
    the tag when the four bytes after the pair are [UEND]; otherwise four
    bytes before the point the attempted read of the tag reached. *)
Definition next_cursor (f : bytes) (pos : nat) : nat :=
  let tag := slice f (pos + 264) 4 in
  if bytes_eqb tag UEND then pos + 268
  else pos + 264 + List.length tag - 4.

(** The four ways through the loop body, by the layout of the file at
    the cursor. *)
Inductive pass_at (decode : bytes -> str) (f : bytes) (pos : nat) :
    pass -> Prop :=
| pass_short_slot :
    List.length f < pos + 256 ->
    pass_at decode f pos (Break [])
| pass_rejected_name :
    pos + 256 <= List.length f ->
    looks_like_valid_path (read_cstring decode (slice f pos 256)) = false ->
    pass_at decode f pos
      (Break [LogDirectoryEnd (read_cstring decode (slice f pos 256))])
| pass_short_pair :
    pos + 256 <= List.length f ->
    looks_like_valid_path (read_cstring decode (slice f pos 256)) = true ->
    List.length f < pos + 264 ->
    pass_at decode f pos (Break [])
| pass_record (off sz : N) :
    pos + 264 <= List.length f ->
    looks_like_valid_path (read_cstring decode (slice f pos 256)) = true ->
    struct_unpack_II (slice f (pos + 256) 8) = inr (off, sz) ->
    pass_at decode f pos
      (Append (Entry (read_cstring decode (slice f pos 256)) off sz)
         (next_cursor f pos)).

(** A run of the loop from cursor [pos]: the entries it appends, in
    order, and what the pass that leaves the loop prints. *)
Inductive loop_run (decode : bytes -> str) (f : bytes) :
    nat -> list entry -> list log_line -> Prop :=
| run_leave pos printed :
    loop_body decode f pos = Break printed ->
    loop_run decode f pos [] printed
| run_append pos e pos' more printed :
    loop_body decode f pos = Append e pos' ->
    loop_run decode f pos' more printed ->
    loop_run decode f pos (e :: more) printed.

(** The synthetic archive of the round trip: the magic in a 16-byte
    header, the slot of [a.bin] (zero-terminated, padded to 256 bytes),
    the offset/size pair, and whatever follows. *)
Definition single_record_archive (hpad spad pair rest : bytes) : bytes :=
  (HEADER_MAGIC ++ hpad) ++ (blit "a.bin" ++ x00 :: spad) ++ pair ++ rest.

(** What the parser takes for the next slot when [rest] follows a pair:
    the bytes after the tag if [rest] starts with [UEND], else [rest]. *)
Definition slot_after (rest : bytes) : bytes :=
  if bytes_eqb (firstn 4 rest) UEND then skipn 4 rest else rest.

(** [r] with a cursor moved [d] bytes further. *)
Definition shift_pass (d : nat) (r : pass) : pass :=
  match r with
  | Append e pos => Append e (d + pos)
  | Break _ | Raise _ => r
  end.

(** The record at [pos] of [f] reads as the entry [e]. *)
Definition record_at (decode : bytes -> str) (f : bytes) (pos : nat)
    (e : entry) : Prop :=
  pos + 264 <= List.length f
  /\ name e = read_cstring decode (slice f pos 256)
  /\ looks_like_valid_path (name e) = true
  /\ struct_unpack_II (slice f (pos + 256) 8) = inr (offset e, size e).

(** The entries [es] are the records of [f] from [pos] on, each next
    record 268 bytes after the one before when [UEND] follows its pair
    and 264 bytes after it otherwise. *)
Fixpoint laid_out (decode : bytes -> str) (f : bytes) (pos : nat)
    (es : list entry) : Prop :=
  match es with
  | [] => True
  | e :: es' =>
      record_at decode f pos e
      /\ match es' with
         | [] => True
         | _ :: _ =>
             laid_out decode f
               (if bytes_eqb (slice f (pos + 264) 4) UEND
                then pos + 268 else pos + 264) es'
         end
  end.

(** The bytes of a directory record as an archive holds them: the name
    slot, the offset/size pair, and the [UEND] tag when there is one. *)
Record raw_record := Raw {
  raw_slot : bytes;
  raw_pair : bytes;
  raw_tag : bool
}.

Definition render (r : raw_record) : bytes :=
  raw_slot r ++ raw_pair r ++ (if raw_tag r then UEND else []).

(** A directory: the records one after the other, then [rest]. *)
Fixpoint directory (rs : list raw_record) (rest : bytes) : bytes :=
  match rs with
  | [] => rest
  | r :: rs' => render r ++ directory rs' rest
  end.

(** The raw record [r] holds the entry [e]: a 256-byte slot whose name
    the validator accepts, and the 8 bytes of its offset and size. *)
Definition reads_as (decode : bytes -> str) (r : raw_record) (e : entry) :
    Prop :=
  List.length (raw_slot r) = 256
  /\ name e = read_cstring decode (raw_slot r)
  /\ looks_like_valid_path (name e) = true
  /\ struct_unpack_II (raw_pair r) = inr (offset e, size e).

(** No record without a tag is followed by bytes that spell [UEND]. *)
Fixpoint tags_clear (rs : list raw_record) (rest : bytes) : Prop :=
  match rs with
  | [] => True
  | r :: rs' =>
      (raw_tag r = false ->
       bytes_eqb (firstn 4 (directory rs' rest)) UEND = false)
      /\ tags_clear rs' rest
  end.

(** An entry the extraction loop acts on: neither its offset nor its
    size is zero and its sanitized name is not empty. *)
Definition live (p : platform) (e : entry) : bool :=
  negb ((offset e =? 0)%N || (size e =? 0)%N)
  && match sanitize_filename p (name e) with [] => false | _ :: _ => true end.

(** A single path component fit for the output directory: not empty, at
    most 200 characters, none of them in the class the sanitizer
    replaces (so in particular no slash and no backslash). *)
Definition safe_component (s : str) : Prop :=
  s <> [] /\ List.length s <= 200
  /\ forall c, In c s -> illegal_char c = false.

(** [fs'] is reached from [fs] by calls to the host of two kinds only:
    making the directory of [out_dir/s], and writing to [out_dir/s] a
    block of the archive [f], for safe components [s]. *)
Inductive served (h : host) (out_dir : str) (f : bytes) :
    FS h -> FS h -> Prop :=
| served_nothing fs : served h out_dir f fs fs
| served_makedirs fs fs' s :
    safe_component s ->
    served h out_dir f
      (fst (makedirs h (path_dirname h (path_join h out_dir s)) fs)) fs' ->
    served h out_dir f fs fs'
| served_write fs fs' s p n :
    safe_component s ->
    served h out_dir f
      (fst (write_file h (path_join h out_dir s) (slice f p n) fs)) fs' ->
    served h out_dir f fs fs'.

(** * Properties *)

(** ** Lists, prefixes and searches *)

Lemma list_eqb_eq {A} (eqb : A -> A -> bool)
    (eqb_eq : forall x y, eqb x y = true <-> x = y) (xs ys : list A) :
  list_eqb eqb xs ys = true <-> xs = ys.
Proof.
  revert ys; induction xs as [|x xs IH]; intros [|y ys]; simpl;
    try (split; [discriminate | congruence]).
  - tauto.
  - rewrite andb_true_iff, eqb_eq, IH. split.
    + intros [-> ->]; reflexivity.
    + intros E; injection E; auto.
Qed.

Lemma byte_eqb_eq (x y : byte) : Byte.eqb x y = true <-> x = y.
Proof.
  split.
  - apply Byte.byte_dec_bl.
  - apply Byte.byte_dec_lb.
Qed.

Lemma bytes_eqb_eq (xs ys : bytes) : bytes_eqb xs ys = true <-> xs = ys.
Proof. apply list_eqb_eq, byte_eqb_eq. Qed.

Lemma starts_with_prefix {A} (eqb : A -> A -> bool)
    (eqb_eq : forall x y, eqb x y = true <-> x = y) (p s : list A) :
  starts_with eqb p s = true <-> exists rest, s = p ++ rest.
Proof.
  revert s; induction p as [|x p IH]; intros s; simpl.
  - split; eauto.
  - destruct s as [|y s].
    + split; [discriminate | intros [rest E]; discriminate].
    + rewrite andb_true_iff, eqb_eq, IH. split.
      * intros [-> [rest ->]]; eauto.
      * intros [rest E]; injection E as -> ->; eauto.
Qed.

(** ** The path validator *)

Lemma no_low_control (nm : str) :
  existsb (fun c => mem_char c nm) [0; 1; 2; 3]%N = false
  <-> forall c, In c nm -> (3 < c)%N.
Proof.
  unfold mem_char; simpl. rewrite !orb_false_iff. split.
  - intros (H0 & H1 & H2 & H3 & _) c Hc.
    assert (K : forall k, existsb (N.eqb k) nm = false -> c <> k).
    { intros k Hk ->. rewrite <- not_true_iff_false in Hk. apply Hk.
      apply existsb_exists; exists k; split; [assumption | apply N.eqb_refl]. }
    apply K in H0, H1, H2, H3. lia.
  - intros H.
    assert (K : forall k, (k <= 3)%N -> existsb (N.eqb k) nm = false).
    { intros k Hk. apply not_true_iff_false. intros E.
      apply existsb_exists in E as (c & Hc & E). apply N.eqb_eq in E; subst c.
      apply H in Hc. lia. }
    repeat split; apply K; lia.
Qed.

Lemma some_printable (nm : str) :
  forallb (fun c => (c <? 32)%N) nm = false
  <-> exists c, In c nm /\ (32 <= c)%N.
Proof.
  induction nm as [|c nm IH]; simpl.
  - split; [discriminate | intros (c & [] & _)].
  - rewrite andb_false_iff, IH, N.ltb_ge. split.
    + intros [H | (d & Hd & H)]; eauto.
    + intros (d & [<- | Hd] & H); eauto.
Qed.

Lemma looks_like_valid_path_iff (nm : str) :
  looks_like_valid_path nm = true
  <-> nm <> []
      /\ 3 <= List.length nm
      /\ (forall c, In c nm -> (3 < c)%N)
      /\ (exists c, In c nm /\ (32 <= c)%N)
      /\ ~ (exists rest, nm = lit "BM" ++ rest).
Proof.
  rewrite <- no_low_control, <- some_printable,
    <- (starts_with_prefix N.eqb N.eqb_eq), not_true_iff_false.
  unfold looks_like_valid_path. destruct nm as [|c nm].
  - split; [discriminate | intros [H _]; congruence].
  - set (s := c :: nm).
    destruct (List.length s <? 3) eqn:L.
    + apply Nat.ltb_lt in L. split; [discriminate | intros (_ & H & _); lia].
    + apply Nat.ltb_ge in L.
      destruct (existsb _ _); [split; [discriminate | intuition congruence]|].
      destruct (forallb _ _); [split; [discriminate | intuition congruence]|].
      destruct (starts_with _ _ _);
        [split; [discriminate | intuition congruence]|].
      subst s; intuition congruence.
Qed.

(** C3: the path validator is a function of the name alone that rejects
    the empty string, any name shorter than 3 characters, any name holding
    one of the characters 0x00-0x03, any name all of whose characters are
    below code point 32, and any name starting with BM, and accepts every
    other name; it rejects the four sample names of the specification and
    accepts data/foo.txt. *)
Theorem validator_rules :
  (forall nm,
     looks_like_valid_path nm =
       if list_eqb N.eqb nm [] then false
       else if List.length nm <? 3 then false
       else if existsb (fun c => mem_char c nm) [0; 1; 2; 3]%N then false
       else if forallb (fun c => (c <? 32)%N) nm then false
       else if starts_with N.eqb (lit "BM") nm then false
       else true)
  /\ (forall nm,
        looks_like_valid_path nm = true
        <-> nm <> []
            /\ 3 <= List.length nm
            /\ (forall c, In c nm -> (3 < c)%N)
            /\ (exists c, In c nm /\ (32 <= c)%N)
            /\ ~ (exists rest, nm = lit "BM" ++ rest))
  /\ looks_like_valid_path (lit "") = false
  /\ looks_like_valid_path (lit "ab") = false
  /\ looks_like_valid_path [1; 1; 1]%N = false
  /\ looks_like_valid_path (lit "BM8xxx") = false
  /\ looks_like_valid_path (lit "data/foo.txt") = true.
Proof.
  split; [|split; [exact looks_like_valid_path_iff | repeat split]].
  intros [|c nm]; reflexivity.
Qed.

(** ** The filename sanitizer *)

Lemma illegal_separators (p : platform) : illegal_char (os_sep p) = true.
Proof. destruct p; reflexivity. Qed.

Lemma sub_illegal_clean (s : str) (c : char) :
  In c (sub_illegal s) -> illegal_char c = false.
Proof.
  unfold sub_illegal. rewrite in_map_iff. intros (d & <- & _).
  destruct (illegal_char d) eqn:E; [reflexivity | assumption].
Qed.

Lemma firstn_In {A} (n : nat) (l : list A) (x : A) :
  In x (firstn n l) -> In x l.
Proof.
  revert l; induction n as [|n IH]; intros [|y l]; simpl; try tauto.
  intros [-> | H]; auto.
Qed.

Lemma sanitize_clean (p : platform) (nm : str) (c : char) :
  In c (sanitize_filename p nm) -> illegal_char c = false.
Proof.
  unfold sanitize_filename. intros H. apply firstn_In in H.
  eapply sub_illegal_clean; eassumption.
Qed.

Lemma lstrip_nil (c : char) (s : str) :
  lstrip c s = [] <-> forall x, In x s -> x = c.
Proof.
  induction s as [|y s IH]; simpl.
  - split; [intros _ x [] | reflexivity].
  - destruct (N.eqb_spec y c) as [-> | N].
    + rewrite IH. split.
      * intros H x [<- | Hx]; auto.
      * intros H x Hx; auto.
    + split; [discriminate | intros H; exfalso; apply N, H; auto].
Qed.

Lemma sanitize_nil (p : platform) (nm : str) :
  sanitize_filename p nm = []
  <-> forall c, In c nm -> c = backslash \/ c = os_sep p.
Proof.
  unfold sanitize_filename, sub_illegal.
  set (s := lstrip _ _).
  assert (E : firstn 200 (map (fun c => if illegal_char c then underscore else c) s) = []
              <-> s = []).
  { destruct s; simpl; split; congruence. }
  rewrite E. subst s. rewrite lstrip_nil. unfold replace_char. split.
  - intros H c Hc.
    specialize (H _ (in_map _ _ _ Hc)). simpl in H.
    destruct (N.eqb_spec c backslash); auto.
  - intros H x Hx. apply in_map_iff in Hx as (c & <- & Hc).
    destruct (N.eqb_spec c backslash); [reflexivity|].
    destruct (H c Hc); congruence.
Qed.

(** C4: the sanitizer replaces every character of the regular
    expression's class by an underscore, and the class holds both the
    slash and the backslash: the separator that the first step puts in
    place of a backslash is replaced as well, so no separator is left in
    the result.  On either platform [data\foo.txt] comes out as
    [data_foo.txt]. *)
Theorem sanitizer_replaces_separators :
  sanitize_filename Posix (lit "data\foo.txt") = lit "data_foo.txt"
  /\ sanitize_filename Windows (lit "data\foo.txt") = lit "data_foo.txt"
  /\ (forall p nm,
        sanitize_filename p nm =
          firstn 200
            (map (fun c => if illegal_char c then underscore else c)
               (lstrip (os_sep p) (replace_char backslash (os_sep p) nm))))
  /\ (forall p nm c,
        In c (sanitize_filename p nm) ->
        illegal_char c = false /\ c <> os_sep p /\ c <> slash
        /\ c <> backslash).
Proof.
  repeat split; try reflexivity.
  - eapply sanitize_clean; eassumption.
  - intros ->. apply sanitize_clean in H.
    rewrite illegal_separators in H; discriminate.
  - intros ->. apply sanitize_clean in H. discriminate.
  - intros ->. apply sanitize_clean in H. discriminate.
Qed.

(** C8, as stated, fails: a name made of three backslashes passes the
    validator, is not empty, and is sanitized to the empty string. *)
Lemma sanitizer_empties_separator_names :
  looks_like_valid_path (lit "\\\") = true
  /\ lit "\\\" <> []
  /\ sanitize_filename Posix (lit "\\\") = []
  /\ sanitize_filename Windows (lit "\\\") = [].
Proof. repeat split; discriminate. Qed.

(** C8, amended: the sanitizer returns at most 200 characters, and its
    result is empty exactly when every character of the name is a
    backslash or the platform's separator (the empty name included). *)
Theorem sanitizer_length_and_emptiness : forall (p : platform) (nm : str),
  List.length (sanitize_filename p nm) <= 200
  /\ (sanitize_filename p nm = []
      <-> forall c, In c nm -> c = backslash \/ c = os_sep p)
  /\ (nm = [] -> sanitize_filename p nm = []).
Proof.
  intros p nm. split; [|split].
  - unfold sanitize_filename. apply firstn_le_length.
  - apply sanitize_nil.
  - intros ->; reflexivity.
Qed.

(** ** One pass through the directory loop *)

Lemma length_slice (f : bytes) (p n : nat) :
  List.length (slice f p n) = Nat.min n (List.length f - p).
Proof. unfold slice. rewrite length_firstn, length_skipn. reflexivity. Qed.

Lemma unpack_eight (data : bytes) :
  List.length data = 8 -> exists off sz, struct_unpack_II data = inr (off, sz).
Proof.
  intros H.
  do 8 (destruct data as [|? data]; [discriminate H|]).
  destruct data; [|discriminate H].
  simpl. eauto.
Qed.

Lemma f_seek_cur_back (p : nat) : 4 <= p -> f_seek_cur (-4) p = inr (p - 4).
Proof.
  intros H. unfold f_seek_cur.
  destruct (Z.ltb_spec (Z.of_nat p + -4) 0); [lia|].
  f_equal. lia.
Qed.

(** The loop body does what [pass_at] says, whatever the file and the
    cursor. *)
Lemma loop_body_spec (decode : bytes -> str) (f : bytes) (pos : nat) :
  pass_at decode f pos (loop_body decode f pos).
Proof.
  unfold loop_body, f_read.
  pose proof (length_slice f pos FIXED_PATH_LEN) as Lc.
  unfold FIXED_PATH_LEN in *.
  set (chunk := slice f pos 256) in *.
  destruct (Nat.ltb_spec (List.length chunk) 256) as [Hs | Hs].
  { rewrite orb_true_r. apply pass_short_slot. lia. }
  assert (Ec : List.length chunk = 256) by lia.
  rewrite Ec. simpl orb. cbv iota.
  destruct (looks_like_valid_path (read_cstring decode chunk)) eqn:V; simpl negb;
    cbv iota; [|apply pass_rejected_name; [lia | assumption]].
  pose proof (length_slice f (pos + 256) 8) as Ld.
  set (data := slice f (pos + 256) 8) in *.
  destruct (Nat.ltb_spec (List.length data) 8) as [Hd | Hd].
  { apply pass_short_pair; [lia | assumption | lia]. }
  assert (Ed : List.length data = 8) by lia.
  destruct (unpack_eight data Ed) as (off & sz & U). rewrite U, Ed.
  replace (pos + 256 + 8) with (pos + 264) by lia.
  pose proof (length_slice f (pos + 264) 4) as Lt.
  assert (N : (if negb (bytes_eqb (slice f (pos + 264) 4) UEND)
               then f_seek_cur (-4) (pos + 264 + List.length (slice f (pos + 264) 4))
               else inr (pos + 264 + List.length (slice f (pos + 264) 4)))
              = inr (next_cursor f pos)).
  { unfold next_cursor.
    destruct (bytes_eqb (slice f (pos + 264) 4) UEND) eqn:T; simpl negb; cbv iota.
    - apply bytes_eqb_eq in T. rewrite T.
      change (List.length UEND) with 4. f_equal; lia.
    - apply f_seek_cur_back. lia. }
  rewrite N. apply pass_record; [lia | assumption | assumption].
Qed.

Lemma loop_body_never_raises (decode : bytes -> str) (f : bytes) (pos : nat)
    (x : exn) :
  loop_body decode f pos <> Raise x.
Proof.
  intros E. pose proof (loop_body_spec decode f pos) as H.
  rewrite E in H. inversion H.
Qed.

Lemma loop_body_append (decode : bytes -> str) (f : bytes) (pos : nat)
    (e : entry) (pos' : nat) :
  loop_body decode f pos = Append e pos' ->
  pos + 264 <= List.length f
  /\ looks_like_valid_path (name e) = true
  /\ name e = read_cstring decode (slice f pos 256)
  /\ struct_unpack_II (slice f (pos + 256) 8) = inr (offset e, size e)
  /\ pos' = next_cursor f pos.
Proof.
  intros E. pose proof (loop_body_spec decode f pos) as H.
  rewrite E in H. inversion H; subst. simpl. auto.
Qed.

Lemma loop_body_short_slot (decode : bytes -> str) (f : bytes) (pos : nat) :
  List.length f < pos + 256 -> loop_body decode f pos = Break [].
Proof.
  intros L. pose proof (loop_body_spec decode f pos) as H.
  inversion H; try reflexivity; lia.
Qed.

Lemma loop_body_short_pair (decode : bytes -> str) (f : bytes) (pos : nat) :
  pos + 256 <= List.length f ->
  looks_like_valid_path (read_cstring decode (slice f pos 256)) = true ->
  List.length f < pos + 264 ->
  loop_body decode f pos = Break [].
Proof.
  intros L V L'. pose proof (loop_body_spec decode f pos) as H.
  inversion H; try reflexivity; try lia; congruence.
Qed.

Lemma next_cursor_bounds (f : bytes) (pos : nat) :
  pos + 264 <= List.length f ->
  pos + 260 <= next_cursor f pos <= pos + 268
  /\ next_cursor f pos <= List.length f.
Proof.
  intros L. unfold next_cursor.
  pose proof (length_slice f (pos + 264) 4) as Lt.
  destruct (bytes_eqb (slice f (pos + 264) 4) UEND) eqn:T.
  - apply bytes_eqb_eq in T. rewrite T in Lt.
    change (List.length UEND) with 4 in Lt. lia.
  - lia.
Qed.

(** ** The loop as a whole *)

Lemma loop_run_deterministic (decode : bytes -> str) (f : bytes) (pos : nat)
    (es es' : list entry) (pr pr' : list log_line) :
  loop_run decode f pos es pr -> loop_run decode f pos es' pr' ->
  es = es' /\ pr = pr'.
Proof.
  intros R; revert es' pr'.
  induction R as [pos pr E | pos e p1 more pr E R IH]; intros es' pr' R';
    inversion R'; subst; try congruence.
  - split; congruence.
  - assert (e0 = e /\ pos' = p1) as [-> ->] by (split; congruence).
    destruct (IH _ _ H0) as [-> ->]. split; reflexivity.
Qed.

(** Whatever the file and the cursor, the loop leaves: each appending
    pass moves the cursor at least 260 bytes closer to the end. *)
Lemma loop_run_exists (decode : bytes -> str) (f : bytes) (pos : nat) :
  exists es pr, loop_run decode f pos es pr.
Proof.
  remember (List.length f - pos) as gap eqn:G. revert pos G.
  induction gap as [gap IH] using lt_wf_ind; intros pos G.
  destruct (loop_body decode f pos) as [pr | e pos' | x] eqn:E.
  - exists [], pr. constructor; assumption.
  - destruct (loop_body_append _ _ _ E) as (L & _ & _ & _ & ->).
    pose proof (next_cursor_bounds f pos L) as B.
    destruct (IH (List.length f - next_cursor f pos)) with (pos := next_cursor f pos)
      as (es & pr & R); [lia | reflexivity |].
    exists (e :: es), pr. econstructor; eassumption.
  - exfalso. eapply loop_body_never_raises; eassumption.
Qed.

Lemma loop_run_count (decode : bytes -> str) (f : bytes) (pos : nat)
    (es : list entry) (pr : list log_line) :
  loop_run decode f pos es pr ->
  260 * List.length es <= List.length f - pos.
Proof.
  induction 1 as [pos pr E | pos e p1 more pr E R IH]; simpl; [lia|].
  destruct (loop_body_append _ _ _ E) as (L & _ & _ & _ & ->).
  pose proof (next_cursor_bounds f pos L). lia.
Qed.

(** [read_records] with fuel for one pass more than the entries the loop
    appends returns them; with less it runs out. *)
Lemma read_records_run (decode : bytes -> str) (f : bytes) (pos : nat)
    (es : list entry) (pr : list log_line) :
  loop_run decode f pos es pr ->
  forall fuel acc,
    read_records decode fuel f pos acc =
      if List.length es <? fuel then Some (inr (acc ++ es, pr)) else None.
Proof.
  induction 1 as [pos pr E | pos e p1 more pr E R IH]; intros [|fuel] acc;
    try reflexivity.
  - simpl. rewrite E, app_nil_r. reflexivity.
  - simpl read_records. rewrite E, IH, <- app_assoc. reflexivity.
Qed.

Lemma parse_directory_run (decode : bytes -> str) (f : bytes)
    (es : list entry) (pr : list log_line) :
  loop_run decode f START_OFFSET es pr ->
  parse_directory decode f = Some (inr (es, pr)).
Proof.
  intros R. unfold parse_directory.
  rewrite (read_records_run R). simpl app.
  pose proof (loop_run_count R) as C.
  destruct (Nat.ltb_spec (List.length es) (S (List.length f))) as [_ | L];
    [reflexivity | lia].
Qed.

Lemma parse_directory_inv (decode : bytes -> str) (f : bytes)
    (es : list entry) (pr : list log_line) :
  parse_directory decode f = Some (inr (es, pr)) ->
  loop_run decode f START_OFFSET es pr.
Proof.
  intros P. destruct (loop_run_exists decode f START_OFFSET) as (es' & pr' & R).
  rewrite (parse_directory_run R) in P. congruence.
Qed.

Lemma parse_directory_total (decode : bytes -> str) (f : bytes) :
  exists es pr, parse_directory decode f = Some (inr (es, pr)).
Proof.
  destruct (loop_run_exists decode f START_OFFSET) as (es & pr & R).
  exists es, pr. apply parse_directory_run, R.
Qed.

(** C9: the directory loop terminates on every archive.  A pass that
    does not leave the loop moves the cursor forward by at least 260 bytes
    (and at most 268); from any cursor the loop appends some [k] entries
    in [k] such passes and leaves in the pass after them, so it needs
    exactly [k + 1] units of fuel, and [k] is at most the length of the
    archive divided by 260. *)
Theorem directory_loop_terminates :
  (forall decode f pos e pos',
     loop_body decode f pos = Append e pos' ->
     pos + 260 <= pos' <= pos + 268)
  /\ (forall decode f pos acc, exists more pr,
        List.length more <= (List.length f - pos) / 260
        /\ List.length more <= List.length f / 260
        /\ forall fuel,
             read_records decode fuel f pos acc =
               if List.length more <? fuel
               then Some (inr (acc ++ more, pr)) else None)
  /\ (forall decode f, exists es pr,
        parse_directory decode f = Some (inr (es, pr))
        /\ List.length es <= List.length f / 260).
Proof.
  split; [|split].
  - intros decode f pos e pos' E.
    destruct (loop_body_append _ _ _ E) as (L & _ & _ & _ & ->).
    apply next_cursor_bounds, L.
  - intros decode f pos acc.
    destruct (loop_run_exists decode f pos) as (more & pr & R).
    exists more, pr. pose proof (loop_run_count R) as C. repeat split.
    + apply Nat.div_le_lower_bound; [discriminate | exact C].
    + apply Nat.div_le_lower_bound; [discriminate | lia].
    + intros fuel. apply read_records_run, R.
  - intros decode f.
    destruct (loop_run_exists decode f START_OFFSET) as (es & pr & R).
    exists es, pr. split; [apply parse_directory_run, R|].
    pose proof (loop_run_count R).
    apply Nat.div_le_lower_bound; [discriminate | lia].
Qed.

(** ** Names in the directory table *)

Lemma until_nul_no_zero (bs : bytes) : ~ In x00 (until_nul bs).
Proof.
  induction bs as [|b bs IH]; simpl; [tauto|].
  destruct (Byte.eqb b x00) eqn:E; simpl; [tauto|].
  intros [-> | H]; [discriminate E | tauto].
Qed.

Lemma loop_run_names (decode : bytes -> str) (f : bytes) (pos : nat)
    (es : list entry) (pr : list log_line) :
  loop_run decode f pos es pr ->
  Forall (fun e =>
            looks_like_valid_path (name e) = true
            /\ exists p, p + 256 <= List.length f
                 /\ name e = decode (until_nul (slice f p 256))) es.
Proof.
  induction 1 as [pos pr E | pos e p1 more pr E R IH]; constructor;
    [|assumption].
  destruct (loop_body_append _ _ _ E) as (L & V & Nm & _).
  split; [assumption|]. exists pos. split; [lia | exact Nm].
Qed.

(** C10: every entry of the table returned by parsing has a name that
    the path validator accepts; so the name is not empty, has at least 3
    characters, does not start with BM and holds no NUL character.  The
    name is the decoding of a 256-byte slot of the archive cut at its
    first zero byte, and the bytes handed to the decoder hold no zero
    byte. *)
Theorem table_names_valid : forall decode f es pr,
  parse_directory decode f = Some (inr (es, pr)) ->
  Forall (fun e =>
            looks_like_valid_path (name e) = true
            /\ name e <> []
            /\ 3 <= List.length (name e)
            /\ ~ (exists rest, name e = lit "BM" ++ rest)
            /\ ~ In 0%N (name e)
            /\ exists p, p + 256 <= List.length f
                 /\ name e = read_cstring decode (slice f p 256)
                 /\ ~ In x00 (until_nul (slice f p 256))) es.
Proof.
  intros decode f es pr P. apply parse_directory_inv in P.
  apply loop_run_names in P. eapply Forall_impl; [|exact P].
  intros e (V & p & L & Nm).
  pose proof (proj1 (looks_like_valid_path_iff (name e)) V)
    as (Hne & Hlen & Hctl & _ & Hbm).
  repeat split; try assumption.
  - intros H0. apply Hctl in H0. lia.
  - exists p. repeat split; [assumption | exact Nm | apply until_nul_no_zero].
Qed.

Lemma table_names_valid_witness :
  Forall (fun e =>
            looks_like_valid_path (name e) = true
            /\ name e <> []
            /\ 3 <= List.length (name e)
            /\ ~ (exists rest, name e = lit "BM" ++ rest)
            /\ ~ In 0%N (name e)
            /\ exists p, p + 256 <= List.length two_file_archive
                 /\ name e = read_cstring seven_bit_codec
                               (slice two_file_archive p 256)
                 /\ ~ In x00 (until_nul (slice two_file_archive p 256)))
    [Entry (lit "a.bin") 548 3; Entry (lit "dir\b.txt") 551 5].
Proof.
  apply (@table_names_valid seven_bit_codec two_file_archive _ []).
  vm_compute. reflexivity.
Defined.

(** ** The optional tag after a record *)

(** C7: every record that lies whole in the archive at [pos] with a name
    the validator accepts is parsed and appended, and after its
    offset/size pair the parser reads up to four bytes.  If they are
    [UEND] the cursor stays behind them: the next pass starts at
    [pos + 268].  Otherwise the cursor goes back four bytes from where
    that read ended: when four bytes were there to read the next pass
    starts at [pos + 264] and reads those four bytes again as the first
    bytes of its slot; and whenever a next record is parsed at all, it
    starts at [pos + 264] with those four bytes. *)
Theorem uend_tag_consumed_or_rewound : forall decode f pos,
  pos + 264 <= List.length f ->
  looks_like_valid_path (read_cstring decode (slice f pos 256)) = true ->
  exists off sz pos',
    struct_unpack_II (slice f (pos + 256) 8) = inr (off, sz)
    /\ loop_body decode f pos
       = Append (Entry (read_cstring decode (slice f pos 256)) off sz) pos'
    /\ (forall fuel acc,
          read_records decode (S fuel) f pos acc
          = read_records decode fuel f pos'
              (acc ++ [Entry (read_cstring decode (slice f pos 256)) off sz]))
    /\ (slice f (pos + 264) 4 = UEND -> pos' = pos + 268)
    /\ (slice f (pos + 264) 4 <> UEND ->
        pos' + 4 = pos + 264 + List.length (slice f (pos + 264) 4)
        /\ (pos + 268 <= List.length f ->
            pos' = pos + 264
            /\ slice f pos' 4 = slice f (pos + 264) 4)
        /\ (forall e2 p2,
              loop_body decode f pos' = Append e2 p2 ->
              pos' = pos + 264
              /\ firstn 4 (slice f pos' 256) = slice f (pos + 264) 4)).
Proof.
  intros decode f pos L V.
  pose proof (loop_body_spec decode f pos) as H.
  inversion H as [L' | L' V' | L' V' L'' | off sz L' V' U E]; try lia;
    try congruence.
  exists off, sz, (next_cursor f pos).
  split; [exact U|]. split; [reflexivity|]. split.
  { intros fuel acc. simpl read_records. rewrite <- E. reflexivity. }
  unfold next_cursor.
  pose proof (length_slice f (pos + 264) 4) as Lt.
  destruct (bytes_eqb (slice f (pos + 264) 4) UEND) eqn:T.
  - apply bytes_eqb_eq in T. split; [reflexivity | congruence].
  - split.
    + intros T'. apply bytes_eqb_eq in T'. congruence.
    + intros _. split; [lia | split].
      * intros L4.
        assert (P : pos + 264 + List.length (slice f (pos + 264) 4) - 4
                    = pos + 264) by lia.
        rewrite P. split; reflexivity.
      * intros e2 p2 E2.
        destruct (loop_body_append _ _ _ E2) as (L2 & _).
        assert (P : pos + 264 + List.length (slice f (pos + 264) 4) - 4
                    = pos + 264) by lia.
        rewrite P. split; [reflexivity|].
        unfold slice. rewrite firstn_firstn. reflexivity.
Qed.

Lemma uend_tag_consumed_or_rewound_witness :
  (slice two_file_archive (16 + 264) 4 = UEND
   /\ loop_body seven_bit_codec two_file_archive 16
      = Append (Entry (lit "a.bin") 548 3) (16 + 268))
  /\ (slice untagged_archive (16 + 264) 4 <> UEND
      /\ loop_body seven_bit_codec untagged_archive 16
         = Append (Entry (lit "a.bin") 544 3) (16 + 264)
      /\ slice untagged_archive (16 + 264) 4 = blit "dir\"
      /\ loop_body seven_bit_codec untagged_archive (16 + 264)
         = Append (Entry (lit "dir\b.txt") 547 5) (16 + 264 + 264)).
Proof.
  split.
  - destruct (@uend_tag_consumed_or_rewound seven_bit_codec two_file_archive
                16) as (off & sz & pos' & U & E & _ & Ht & _);
      [vm_compute; lia | vm_compute; reflexivity |].
    assert (T : slice two_file_archive (16 + 264) 4 = UEND)
      by (vm_compute; reflexivity).
    split; [exact T|]. rewrite E, (Ht T).
    assert (U' : struct_unpack_II (slice two_file_archive (16 + 256) 8)
                 = inr (548%N, 3%N)) by (vm_compute; reflexivity).
    rewrite U' in U. injection U as <- <-. reflexivity.
  - assert (T : slice untagged_archive (16 + 264) 4 <> UEND)
      by (vm_compute; discriminate).
    split; [exact T|].
    destruct (@uend_tag_consumed_or_rewound seven_bit_codec untagged_archive
                16) as (off & sz & pos' & U & E & _ & _ & Hn);
      [vm_compute; lia | vm_compute; reflexivity |].
    destruct (Hn T) as (_ & Hf & _).
    destruct Hf as (Ep & _); [vm_compute; lia|].
    assert (U' : struct_unpack_II (slice untagged_archive (16 + 256) 8)
                 = inr (544%N, 3%N)) by (vm_compute; reflexivity).
    rewrite U' in U. injection U as <- <-.
    split; [rewrite E, Ep; reflexivity|].
    split; vm_compute; reflexivity.
Defined.

(** ** Short reads *)

Lemma slice_firstn (f : bytes) (m p n : nat) :
  p + n <= m -> slice (firstn m f) p n = slice f p n.
Proof.
  intros L. unfold slice. rewrite skipn_firstn_comm, firstn_firstn.
  f_equal. lia.
Qed.

Lemma entry_eta (e : entry) : Entry (name e) (offset e) (size e) = e.
Proof. destruct e; reflexivity. Qed.

(** A record that lies within the first [m] bytes is read from the
    truncated file as from the whole one. *)
Lemma loop_body_truncated (decode : bytes -> str) (f : bytes) (m pos : nat)
    (e : entry) (p1 : nat) :
  loop_body decode (firstn m f) pos = Append e p1 ->
  loop_body decode f pos = Append e (next_cursor f pos)
  /\ pos + 264 <= m
  /\ pos + 264 <= List.length f.
Proof.
  intros E. destruct (loop_body_append _ _ _ E) as (L & V & Nm & U & _).
  rewrite length_firstn in L.
  rewrite slice_firstn in Nm by lia. rewrite slice_firstn in U by lia.
  rewrite Nm in V.
  pose proof (loop_body_spec decode f pos) as H.
  inversion H as [L' | L' V' | L' V' L'' | off sz L' V' U' E']; try lia;
    try congruence.
  split; [|lia]. rewrite <- Nm. f_equal.
  rewrite U in U'. injection U' as <- <-. apply entry_eta.
Qed.

Lemma loop_run_truncated (decode : bytes -> str) (f : bytes) (m pos : nat)
    (es' : list entry) (pr' : list log_line) :
  loop_run decode (firstn m f) pos es' pr' ->
  forall es pr, loop_run decode f pos es pr -> prefix_of es' es.
Proof.
  induction 1 as [pos pr' E | pos e p1 more1 pr' E R IH]; intros es pr Rf.
  - exists es. reflexivity.
  - destruct (loop_body_truncated _ _ _ _ E) as (Ef & Lm & Lf).
    destruct (loop_body_append _ _ _ E) as (L & _ & _ & _ & ->).
    inversion Rf as [? ? Eb | ? e' p2 more2 ? Ea Rf']; subst; [congruence|].
    rewrite Ef in Ea. injection Ea as <- <-.
    destruct (Nat.le_gt_cases (pos + 268) m) as [Lt | Lt].
    + assert (C : next_cursor (firstn m f) pos = next_cursor f pos).
      { unfold next_cursor. rewrite slice_firstn by lia. reflexivity. }
      rewrite C in *. destruct (IH _ _ Rf') as (more & ->).
      exists more. reflexivity.
    + assert (Lf' : List.length (firstn m f) < pos + 268)
        by (rewrite length_firstn; lia).
      assert (B : loop_body decode (firstn m f) (next_cursor (firstn m f) pos)
                  = Break []).
      { apply loop_body_short_slot.
        pose proof (next_cursor_bounds (firstn m f) pos L). lia. }
      inversion R; subst; [|congruence].
      exists more2. reflexivity.
Qed.

(** C2: the directory loop never raises.  It always returns a table; a
    pass that finds fewer than 256 bytes for the name slot, or fewer than
    8 bytes for the pair after an accepted name, leaves the loop with the
    table as it stands; whatever the loop returns extends the table it
    started from; and the table parsed from an archive cut short at any
    length is an initial segment of the table parsed from the whole
    archive. *)
Theorem short_reads_end_the_loop :
  (forall decode f, exists es pr,
     parse_directory decode f = Some (inr (es, pr)))
  /\ (forall decode f pos x, loop_body decode f pos <> Raise x)
  /\ (forall decode f fuel pos acc r,
        read_records decode fuel f pos acc = Some r ->
        exists more pr, r = inr (acc ++ more, pr))
  /\ (forall decode f fuel pos acc,
        List.length f < pos + 256 ->
        read_records decode (S fuel) f pos acc = Some (inr (acc, [])))
  /\ (forall decode f fuel pos acc,
        pos + 256 <= List.length f ->
        looks_like_valid_path (read_cstring decode (slice f pos 256)) = true ->
        List.length f < pos + 264 ->
        read_records decode (S fuel) f pos acc = Some (inr (acc, [])))
  /\ (forall decode f m es pr es' pr',
        parse_directory decode f = Some (inr (es, pr)) ->
        parse_directory decode (firstn m f) = Some (inr (es', pr')) ->
        prefix_of es' es).
Proof.
  split; [|split; [|split; [|split; [|split]]]].
  - exact parse_directory_total.
  - exact loop_body_never_raises.
  - intros decode f fuel pos acc r E.
    destruct (loop_run_exists decode f pos) as (more & pr & R).
    rewrite (read_records_run R) in E.
    destruct (List.length more <? fuel); [|discriminate].
    exists more, pr. congruence.
  - intros decode f fuel pos acc L. simpl.
    rewrite loop_body_short_slot by assumption. reflexivity.
  - intros decode f fuel pos acc L V L'. simpl.
    rewrite loop_body_short_pair by assumption. reflexivity.
  - intros decode f m es pr es' pr' P P'.
    apply parse_directory_inv in P, P'.
    eapply loop_run_truncated; eassumption.
Qed.

Lemma short_reads_end_the_loop_witness :
  prefix_of [Entry (lit "a.bin") 548 3]
    [Entry (lit "a.bin") 548 3; Entry (lit "dir\b.txt") 551 5].
Proof.
  apply (proj2 (proj2 (proj2 (proj2 (proj2 short_reads_end_the_loop))))
           seven_bit_codec two_file_archive 282 _ [] _ []);
    vm_compute; reflexivity.
Defined.

(** ** The magic check *)

Lemma bytes_find_none (needle hay : bytes) :
  bytes_find needle hay = None -> ~ occurs_in needle hay.
Proof.
  induction hay as [|b hay IH]; simpl;
    destruct (starts_with Byte.eqb needle _) eqn:S; try discriminate;
    intros E (pre & post & H).
  - destruct pre; [|discriminate H].
    rewrite <- not_true_iff_false in S. apply S.
    apply (starts_with_prefix Byte.eqb byte_eqb_eq). eauto.
  - destruct pre as [|c pre].
    + rewrite <- not_true_iff_false in S. apply S.
      apply (starts_with_prefix Byte.eqb byte_eqb_eq). eauto.
    + injection H as _ H. apply IH.
      * destruct (bytes_find needle hay); [discriminate E | reflexivity].
      * exists pre, post. exact H.
Qed.

Lemma bytes_find_some (needle hay : bytes) (i : nat) :
  bytes_find needle hay = Some i -> occurs_in needle hay.
Proof.
  revert i; induction hay as [|b hay IH]; intros i; simpl;
    destruct (starts_with Byte.eqb needle _) eqn:S; try discriminate.
  - intros _. apply (starts_with_prefix Byte.eqb byte_eqb_eq) in S as (r & E).
    exists [], r. exact E.
  - intros _. apply (starts_with_prefix Byte.eqb byte_eqb_eq) in S as (r & E).
    exists [], r. exact E.
  - destruct (bytes_find needle hay) as [j|]; [|discriminate].
    intros _. destruct (IH j eq_refl) as (pre & post & ->).
    exists (b :: pre), post. reflexivity.
Qed.

Lemma locate_magic_none (f : bytes) :
  locate_magic f = None <-> ~ occurs_in HEADER_MAGIC (firstn 64 f).
Proof.
  unfold locate_magic, f_read.
  change (slice f 0 64) with (firstn 64 f).
  change (slice f 0 (List.length HEADER_MAGIC)) with (firstn 10 f).
  destruct (bytes_eqb (firstn 10 f) HEADER_MAGIC) eqn:M; simpl negb; cbv iota.
  - apply bytes_eqb_eq in M. split; [discriminate|]. intros H. exfalso. apply H.
    exists [], (skipn 10 (firstn 64 f)).
    rewrite <- M at 1.
    replace (firstn 10 f) with (firstn 10 (firstn 64 f))
      by (rewrite firstn_firstn; reflexivity).
    symmetry. apply firstn_skipn.
  - destruct (bytes_find HEADER_MAGIC (firstn 64 f)) as [i|] eqn:F.
    + split; [discriminate|]. intros H. exfalso.
      apply H. eapply bytes_find_some, F.
    + split; [intros _; apply bytes_find_none, F | reflexivity].
Qed.

(** C6: when the magic does not occur in the first 64 bytes, the run
    stops with [SystemExit], whose exit status is not zero, leaving the
    filesystem as it was when the archive was opened and nothing logged:
    the call that makes the output directory is the only one the host
    has served, and no file is written.  When the magic occurs there, at
    offset 0 or later, the run goes on to parse the directory and to
    extract the table it gets. *)
Theorem magic_check_gates_the_run : forall h decode f out_dir fs,
  (~ occurs_in HEADER_MAGIC (firstn 64 f) ->
   extract_opened h decode f out_dir fs = Some (Run h SystemExit fs [])
   /\ exit_code SystemExit <> 0%N
   /\ (forall fs0,
         makedirs h out_dir fs = (fs0, None) ->
         extract h decode f out_dir fs = Some (Run h SystemExit fs0 []))
   /\ (exists r,
         extract h decode f out_dir fs = Some r
         /\ exit_code (run_status r) <> 0%N
         /\ run_fs r = fst (makedirs h out_dir fs)
         /\ run_log r = []))
  /\ (occurs_in HEADER_MAGIC (firstn 64 f) ->
      exists es pr,
        parse_directory decode f = Some (inr (es, pr))
        /\ extract_opened h decode f out_dir fs =
             Some (extract_entries h out_dir f es fs
                     (pr ++ [LogFound (List.length es)]))
        /\ (forall fs0,
              makedirs h out_dir fs = (fs0, None) ->
              extract h decode f out_dir fs =
                Some (extract_entries h out_dir f es fs0
                        (pr ++ [LogFound (List.length es)])))).
Proof.
  intros h decode f out_dir fs. split.
  - intros H. apply locate_magic_none in H.
    assert (E : forall fs', extract_opened h decode f out_dir fs'
                            = Some (Run h SystemExit fs' [])).
    { intros fs'. unfold extract_opened. rewrite H. reflexivity. }
    split; [apply E | split; [discriminate | split]].
    + intros fs0 M. unfold extract. rewrite M. apply E.
    + unfold extract. destruct (makedirs h out_dir fs) as [fs0 [err|]].
      * eexists. split; [reflexivity|]. repeat split. discriminate.
      * rewrite E. eexists. split; [reflexivity|]. repeat split. discriminate.
  - intros H.
    destruct (locate_magic f) as [i|] eqn:Lm;
      [|apply locate_magic_none in Lm; contradiction].
    destruct (parse_directory_total decode f) as (es & pr & P).
    exists es, pr.
    assert (E : forall fs', extract_opened h decode f out_dir fs'
                = Some (extract_entries h out_dir f es fs'
                          (pr ++ [LogFound (List.length es)]))).
    { intros fs'. unfold extract_opened. rewrite Lm, P. reflexivity. }
    split; [exact P | split; [apply E|]].
    intros fs0 M. unfold extract. rewrite M. apply E.
Qed.

Lemma magic_check_gates_the_run_witness :
  extract_opened (mem_host no_fault no_fault) seven_bit_codec
    no_magic_archive (lit "out") empty_fs
  = Some (Run (mem_host no_fault no_fault) SystemExit empty_fs []).
Proof.
  apply (proj1 (magic_check_gates_the_run (mem_host no_fault no_fault)
                  seven_bit_codec no_magic_archive (lit "out") empty_fs)).
  apply bytes_find_none. vm_compute. reflexivity.
Defined.

(** ** Output failures *)

Lemma extract_entries_finishes (h : host) (out_dir : str) (f : bytes) :
  (forall p fs, snd (makedirs h p fs) = None) ->
  forall entries fs log,
    run_status (extract_entries h out_dir f entries fs log) = Finished
    /\ exists lines,
         run_log (extract_entries h out_dir f entries fs log) = log ++ lines
         /\ List.length lines = List.length entries.
Proof.
  intros Mk. induction entries as [|e rest IH]; intros fs log.
  - split; [reflexivity|]. exists []. rewrite app_nil_r. split; reflexivity.
  - assert (K : forall fs' line,
               run_status (extract_entries h out_dir f rest fs' (log ++ [line]))
               = Finished
               /\ exists lines,
                    run_log (extract_entries h out_dir f rest fs' (log ++ [line]))
                    = log ++ lines
                    /\ List.length lines = List.length (e :: rest)).
    { intros fs' line. destruct (IH fs' (log ++ [line])) as (St & lines & Lg & Ln).
      split; [exact St|]. exists (line :: lines).
      rewrite Lg, <- app_assoc. split; [reflexivity | simpl; congruence]. }
    simpl extract_entries.
    destruct ((offset e =? 0)%N || (size e =? 0)%N); [apply K|].
    destruct (sanitize_filename (os h) (name e)) as [|c safe]; [apply K|].
    pose proof (Mk (path_dirname h (path_join h out_dir (c :: safe))) fs) as M.
    destruct (makedirs h _ fs) as [fs1 [err|]]; [discriminate M|].
    destruct (write_entry h _ _ _ _ fs1) as [fs2 line]. apply K.
Qed.

(** C5: the code at an input where it departs from the claim.  The table
    of this archive has two entries; the output directory is made, then
    making the directory of the first entry's output path fails.  That
    call is not inside the [try] block that guards the write: the error
    ends the run, nothing is logged for either entry and the second
    entry is never reached. *)
Lemma directory_failure_ends_the_run :
  parse_directory seven_bit_codec two_file_archive
  = Some (inr ([Entry (lit "a.bin") 548 3; Entry (lit "dir\b.txt") 551 5], []))
  /\ extract (mem_host (fault_at 1) no_fault) seven_bit_codec
       two_file_archive (lit "out") empty_fs
     = Some (Run (mem_host (fault_at 1) no_fault) (Uncaught (OSError EIO))
               (MemFS 2 [lit "out"] []) [LogFound 2]).
Proof. split; vm_compute; reflexivity. Qed.

(** X15: an [OSError] raised while opening an entry's output file or
    writing its bytes is caught there: the failure is logged with the
    error and the loop goes on with the next entry, from the filesystem
    the failed write left.  So as long as the directories can be made, no
    failed write ends the run: the loop finishes and logs one line for
    every entry of the table. *)
Theorem write_failures_are_absorbed : forall h out_dir f,
  (forall e rest fs log fs1 fs2 err,
     offset e <> 0%N -> size e <> 0%N ->
     sanitize_filename (os h) (name e) <> [] ->
     makedirs h
       (path_dirname h
          (path_join h out_dir (sanitize_filename (os h) (name e)))) fs
     = (fs1, None) ->
     write_file h (path_join h out_dir (sanitize_filename (os h) (name e)))
       (payload f e) fs1
     = (fs2, Some err) ->
     extract_entries h out_dir f (e :: rest) fs log
     = extract_entries h out_dir f rest fs2
         (log ++ [LogFailed (sanitize_filename (os h) (name e)) err]))
  /\ ((forall p fs, snd (makedirs h p fs) = None) ->
      forall entries fs log,
        run_status (extract_entries h out_dir f entries fs log) = Finished
        /\ exists lines,
             run_log (extract_entries h out_dir f entries fs log)
             = log ++ lines
             /\ List.length lines = List.length entries).
Proof.
  intros h out_dir f. split; [|apply extract_entries_finishes].
  intros e rest fs log fs1 fs2 err Ho Hs Hn Mk Wr.
  simpl extract_entries.
  apply N.eqb_neq in Ho, Hs. rewrite Ho, Hs. simpl orb. cbv iota.
  destruct (sanitize_filename (os h) (name e)) as [|c safe] eqn:Sf;
    [congruence|].
  rewrite Mk. unfold write_entry. rewrite Wr. reflexivity.
Qed.

Lemma write_failures_are_absorbed_witness :
  extract_entries (mem_host no_fault (fault_at 1)) (lit "out")
    two_file_archive
    [Entry (lit "a.bin") 548 3; Entry (lit "dir\b.txt") 551 5] empty_fs []
  = extract_entries (mem_host no_fault (fault_at 1)) (lit "out")
      two_file_archive [Entry (lit "dir\b.txt") 551 5]
      (MemFS 2 [lit "out"] []) ([] ++ [LogFailed (lit "a.bin") EIO]).
Proof.
  apply (proj1 (write_failures_are_absorbed (mem_host no_fault (fault_at 1))
                  (lit "out") two_file_archive)
           (Entry (lit "a.bin") 548 3) [Entry (lit "dir\b.txt") 551 5]
           empty_fs [] (MemFS 1 [lit "out"] []) (MemFS 2 [lit "out"] []) EIO);
    try discriminate; vm_compute; reflexivity.
Defined.

(** ** Round trip of a single record *)

Lemma slice_app_at (a r : bytes) (p k n : nat) :
  List.length a = p -> slice (a ++ r) (p + k) n = slice r k n.
Proof.
  intros <-. unfold slice. f_equal.
  rewrite skipn_app, skipn_all2 by lia.
  replace (List.length a + k - List.length a) with k by lia. reflexivity.
Qed.

Lemma slice_whole_prefix (a r : bytes) (n : nat) :
  List.length a = n -> slice (a ++ r) 0 n = a.
Proof.
  intros <-. unfold slice. simpl skipn.
  rewrite firstn_app, firstn_all, Nat.sub_diag. simpl. apply app_nil_r.
Qed.

Lemma unpack_length (data : bytes) (x : N * N) :
  struct_unpack_II data = inr x -> List.length data = 8.
Proof.
  intros H.
  do 8 (destruct data as [|? data]; [discriminate H|]).
  destruct data; [reflexivity | discriminate H].
Qed.

Lemma loop_body_leaves (decode : bytes -> str) (f : bytes) (pos : nat) :
  List.length f < pos + 264
  \/ looks_like_valid_path (read_cstring decode (slice f pos 256)) = false ->
  exists pr, loop_body decode f pos = Break pr.
Proof.
  intros H. destruct (loop_body decode f pos) as [pr | e pos' | x] eqn:E.
  - eauto.
  - destruct (loop_body_append _ _ _ E) as (L & V & Nm & _).
    rewrite Nm in V. destruct H; [lia | congruence].
  - exfalso. eapply loop_body_never_raises, E.
Qed.

Section SingleRecord.

Variable decode : bytes -> str.
Variables hpad spad pair rest : bytes.
Variables off sz : N.

Hypothesis hpad_length : List.length hpad = 6.
Hypothesis spad_length : List.length spad = 250.
Hypothesis pair_value : struct_unpack_II pair = inr (off, sz).
Hypothesis decode_name : decode (blit "a.bin") = lit "a.bin".
Hypothesis directory_ends :
  List.length (slot_after rest) < 264
  \/ looks_like_valid_path
       (read_cstring decode (firstn 256 (slot_after rest))) = false.

Local Abbreviation f := (single_record_archive hpad spad pair rest).

Lemma single_record_length : List.length f = 280 + List.length rest.
Proof.
  unfold single_record_archive. rewrite !length_app. simpl List.length.
  rewrite (unpack_length _ pair_value), hpad_length, spad_length. lia.
Qed.

Lemma single_record_slot :
  slice f 16 256 = blit "a.bin" ++ x00 :: spad.
Proof.
  unfold single_record_archive.
  rewrite (@slice_app_at (HEADER_MAGIC ++ hpad) _ 16 0 256)
    by (rewrite length_app, hpad_length; reflexivity).
  apply slice_whole_prefix. rewrite length_app. simpl. rewrite spad_length.
  reflexivity.
Qed.

Lemma single_record_pair : slice f 272 8 = pair.
Proof.
  unfold single_record_archive. rewrite app_assoc.
  rewrite (@slice_app_at _ _ 272 0 8).
  - apply slice_whole_prefix, (unpack_length _ pair_value).
  - rewrite !length_app. simpl. rewrite hpad_length, spad_length. reflexivity.
Qed.

Lemma single_record_rest (k n : nat) : slice f (280 + k) n = slice rest k n.
Proof.
  unfold single_record_archive. rewrite 2!app_assoc.
  apply slice_app_at. rewrite !length_app. simpl.
  rewrite (unpack_length _ pair_value), hpad_length, spad_length. reflexivity.
Qed.

Lemma single_record_first_pass :
  loop_body decode f 16 = Append (Entry (lit "a.bin") off sz) (next_cursor f 16).
Proof.
  pose proof single_record_length as L.
  assert (Nm : read_cstring decode (slice f 16 256) = lit "a.bin").
  { rewrite single_record_slot. unfold read_cstring.
    change (until_nul (blit "a.bin" ++ x00 :: spad)) with (blit "a.bin").
    exact decode_name. }
  pose proof (loop_body_spec decode f 16) as H.
  inversion H as [L' | L' V' | L' V' L'' | off' sz' L' V' U' E']; try lia.
  - rewrite Nm in V'. discriminate V'.
  - rewrite Nm. f_equal.
    change (16 + 256) with 272 in U'.
    rewrite single_record_pair, pair_value in U'. congruence.
Qed.

Lemma single_record_second_pass :
  exists pr, loop_body decode f (next_cursor f 16) = Break pr.
Proof.
  pose proof single_record_length as L.
  apply loop_body_leaves. unfold next_cursor.
  change (16 + 264) with (280 + 0). rewrite single_record_rest.
  change (slice rest 0 4) with (firstn 4 rest).
  pose proof directory_ends as D. unfold slot_after in D.
  pose proof (length_firstn 4 rest) as Lt.
  destruct (bytes_eqb (firstn 4 rest) UEND) eqn:T.
  - change (16 + 268) with (280 + 4). rewrite single_record_rest.
    rewrite length_skipn in D. apply bytes_eqb_eq in T. rewrite T in Lt.
    change (List.length UEND) with 4 in Lt.
    destruct D as [D | D]; [left; lia | right; exact D].
  - destruct (Nat.le_gt_cases 4 (List.length rest)) as [R | R].
    + replace (280 + 0 + List.length (firstn 4 rest) - 4) with (280 + 0) by lia.
      rewrite single_record_rest.
      destruct D as [D | D]; [left; lia | right; exact D].
    + left. lia.
Qed.

Lemma single_record_table :
  exists pr,
    parse_directory decode f = Some (inr ([Entry (lit "a.bin") off sz], pr)).
Proof.
  destruct single_record_second_pass as (pr & B).
  exists pr. apply parse_directory_run.
  eapply run_append; [apply single_record_first_pass|].
  apply run_leave, B.
Qed.

Lemma single_record_magic : exists i, locate_magic f = Some i.
Proof.
  destruct (locate_magic f) as [i|] eqn:E; [eauto|].
  apply locate_magic_none in E. exfalso. apply E.
  unfold single_record_archive. rewrite <- app_assoc.
  change 64 with (List.length HEADER_MAGIC + 54). rewrite firstn_app_2.
  exists [], (firstn 54 (hpad ++ (blit "a.bin" ++ x00 :: spad) ++ pair ++ rest)).
  reflexivity.
Qed.

End SingleRecord.

Lemma sanitize_a_bin (p : platform) :
  sanitize_filename p (lit "a.bin") = lit "a.bin".
Proof. destruct p; reflexivity. Qed.

(** C1, as stated, fails when the size field is zero: the archive has the
    described shape, with the record [a.bin], offset 280 and size 0, and
    the zero bytes of content are where the offset says; the entry is
    skipped as empty and no file [a.bin] is written. *)
Lemma zero_size_record_is_skipped :
  zero_size_archive
  = single_record_archive (repeat x00 6) (repeat x00 250)
      (pack_u32 280 ++ pack_u32 0) (blit "xyz")
  /\ struct_unpack_II (pack_u32 280 ++ pack_u32 0) = inr (280%N, 0%N)
  /\ List.length (slot_after (blit "xyz")) < 264
  /\ slice zero_size_archive 280 0 = []
  /\ extract (mem_host no_fault no_fault) seven_bit_codec zero_size_archive
       (lit "out") empty_fs
     = Some (Run (mem_host no_fault no_fault) Finished
               (MemFS 1 [lit "out"] [])
               [LogFound 1; LogSkipEmpty (lit "a.bin")])
  /\ file_at (files (MemFS 1 [lit "out"] [])) (lit "out/a.bin") = None.
Proof. repeat split; vm_compute; try reflexivity; lia. Qed.

(** C1, amended: take an archive made of the magic in a 16-byte header,
    the one record [a.bin] with offset [off] and size [sz], both not zero,
    followed by the end of the file or by a slot whose name the validator
    rejects, with the [sz] bytes [content] at offset [off].  If the codec
    decodes the five bytes of the name to [a.bin] and the host makes the
    directories and writes the file without error, the run finishes
    having written exactly [content] to [a.bin] under the output
    directory, and logs one entry found and that file done. *)
Theorem single_record_round_trip :
  forall h decode hpad spad pair rest off sz content out_dir fs fs0 fs1 fs2,
  List.length hpad = 6 ->
  List.length spad = 250 ->
  struct_unpack_II pair = inr (off, sz) ->
  decode (blit "a.bin") = lit "a.bin" ->
  List.length (slot_after rest) < 264
  \/ looks_like_valid_path
       (read_cstring decode (firstn 256 (slot_after rest))) = false ->
  off <> 0%N ->
  sz <> 0%N ->
  slice (single_record_archive hpad spad pair rest)
    (N.to_nat off) (N.to_nat sz) = content ->
  List.length content = N.to_nat sz ->
  makedirs h out_dir fs = (fs0, None) ->
  makedirs h (path_dirname h (path_join h out_dir (lit "a.bin"))) fs0
  = (fs1, None) ->
  write_file h (path_join h out_dir (lit "a.bin")) content fs1
  = (fs2, None) ->
  exists pr,
    parse_directory decode (single_record_archive hpad spad pair rest)
    = Some (inr ([Entry (lit "a.bin") off sz], pr))
    /\ extract h decode (single_record_archive hpad spad pair rest) out_dir fs
       = Some (Run h Finished fs2
                 (pr ++ [LogFound 1; LogOk (lit "a.bin") sz])).
Proof.
  intros h decode hpad spad pair rest off sz content out_dir fs fs0 fs1 fs2
    Hh Hs Hp Hd He Ho Hz Hc _ M0 M1 W.
  destruct (single_record_table decode hpad spad pair rest Hh Hs Hp Hd He)
    as (pr & P).
  destruct (single_record_magic hpad spad pair rest) as (i & Lm).
  exists pr. split; [exact P|].
  unfold extract. rewrite M0. unfold extract_opened. rewrite Lm, P.
  simpl extract_entries.
  apply N.eqb_neq in Ho, Hz. rewrite Ho, Hz. simpl orb. cbv iota.
  rewrite sanitize_a_bin. change (lit "a.bin") with (97%N :: lit ".bin") at 1.
  cbv iota. change (97%N :: lit ".bin") with (lit "a.bin").
  rewrite M1. unfold write_entry, payload, f_read. simpl fst. simpl size.
  simpl offset. rewrite Hc, W. simpl extract_entries.
  rewrite <- app_assoc. reflexivity.
Qed.

Lemma single_record_round_trip_witness :
  (exists pr,
     parse_directory seven_bit_codec one_file_archive
     = Some (inr ([Entry (lit "a.bin") 280 3], pr))
     /\ extract (mem_host no_fault no_fault) seven_bit_codec
          one_file_archive (lit "out") empty_fs
        = Some (Run (mem_host no_fault no_fault) Finished
                  (MemFS 3 [lit "out"; lit "out"]
                     [(lit "out/a.bin", blit "xyz")])
                  (pr ++ [LogFound 1; LogOk (lit "a.bin") 3])))
  /\ file_at [(lit "out/a.bin", blit "xyz")] (lit "out/a.bin")
     = Some (blit "xyz").
Proof.
  split; [|reflexivity].
  change one_file_archive
    with (single_record_archive (repeat x00 6) (repeat x00 250)
            (pack_u32 280 ++ pack_u32 3) (blit "xyz")).
  apply (@single_record_round_trip (mem_host no_fault no_fault)
           seven_bit_codec (repeat x00 6) (repeat x00 250)
           (pack_u32 280 ++ pack_u32 3) (blit "xyz") 280%N 3%N (blit "xyz")
           (lit "out") empty_fs (MemFS 1 [lit "out"] [])
           (MemFS 2 [lit "out"; lit "out"] []));
    try discriminate; try (vm_compute; reflexivity).
  left. vm_compute. lia.
Defined.

(** * Further properties of the code *)

(** ** The name decoder *)

Lemma until_nul_split (bs : bytes) :
  exists rest,
    bs = until_nul bs ++ rest /\ (rest = [] \/ exists r, rest = x00 :: r).
Proof.
  induction bs as [|b bs (rest & E & H)]; simpl.
  - exists []. auto.
  - destruct (Byte.eqb b x00) eqn:B.
    + apply byte_eqb_eq in B; subst b. exists (x00 :: bs). eauto.
    + exists rest. simpl. split; [congruence | exact H].
Qed.

Lemma until_nul_app (a b : bytes) :
  ~ In x00 a -> until_nul (a ++ x00 :: b) = a.
Proof.
  induction a as [|c a IH]; simpl; intros H; [reflexivity|].
  destruct (Byte.eqb c x00) eqn:B.
  - apply byte_eqb_eq in B. tauto.
  - rewrite IH by tauto. reflexivity.
Qed.

Lemma until_nul_clean (a : bytes) : ~ In x00 a -> until_nul a = a.
Proof.
  induction a as [|c a IH]; simpl; intros H; [reflexivity|].
  destruct (Byte.eqb c x00) eqn:B.
  - apply byte_eqb_eq in B. tauto.
  - rewrite IH by tauto. reflexivity.
Qed.

(** X1: [read_cstring] decodes the bytes before the first zero byte of the
    slot and nothing else: the slot splits into that zero-free part and a
    rest that is empty or starts with the zero byte; whatever follows the
    first zero byte has no influence on the name; a slot with no zero
    byte is decoded whole. *)
Theorem cstring_stops_at_first_nul :
  (forall decode bs, exists rest,
     bs = until_nul bs ++ rest
     /\ ~ In x00 (until_nul bs)
     /\ (rest = [] \/ exists r, rest = x00 :: r)
     /\ read_cstring decode bs = decode (until_nul bs))
  /\ (forall decode a b b',
        ~ In x00 a ->
        read_cstring decode (a ++ x00 :: b) = decode a
        /\ read_cstring decode (a ++ x00 :: b)
           = read_cstring decode (a ++ x00 :: b'))
  /\ (forall decode a, ~ In x00 a -> read_cstring decode a = decode a).
Proof.
  split; [|split].
  - intros decode bs. destruct (until_nul_split bs) as (rest & E & H).
    exists rest. repeat split; auto. apply until_nul_no_zero.
  - intros decode a b b' H. unfold read_cstring.
    rewrite !until_nul_app by assumption. split; reflexivity.
  - intros decode a H. unfold read_cstring. rewrite until_nul_clean; auto.
Qed.

(** ** Fixed points of the sanitizer *)

Lemma lstrip_head (c : char) (s : str) :
  ~ In c s -> lstrip c s = s.
Proof.
  destruct s as [|x s]; simpl; [reflexivity|]. intros H.
  destruct (N.eqb_spec x c); [tauto | reflexivity].
Qed.

Lemma sanitize_clean_name (p : platform) (nm : str) :
  (forall c, In c nm -> illegal_char c = false) ->
  List.length nm <= 200 ->
  sanitize_filename p nm = nm.
Proof.
  intros C L. unfold sanitize_filename.
  assert (R : replace_char backslash (os_sep p) nm = nm).
  { unfold replace_char. rewrite <- (map_id nm) at 2. apply map_ext_in.
    intros c Hc. destruct (N.eqb_spec c backslash) as [-> | _]; [|reflexivity].
    apply C in Hc. discriminate Hc. }
  rewrite R, lstrip_head.
  - unfold sub_illegal.
    replace (map (fun c => if illegal_char c then underscore else c) nm)
      with nm.
    + apply firstn_all2, L.
    + rewrite <- (map_id nm) at 1. apply map_ext_in.
      intros c Hc. rewrite (C c Hc). reflexivity.
  - intros H. apply C in H. rewrite illegal_separators in H. discriminate H.
Qed.

(** X2: the names the sanitizer leaves unchanged are exactly those of at
    most 200 characters none of which is in the replaced class; its
    results are such names, so sanitizing twice is the same as sanitizing
    once. *)
Theorem sanitizer_fixed_points : forall (p : platform) (nm : str),
  (sanitize_filename p nm = nm
   <-> (forall c, In c nm -> illegal_char c = false)
       /\ List.length nm <= 200)
  /\ sanitize_filename p (sanitize_filename p nm) = sanitize_filename p nm.
Proof.
  intros p nm.
  assert (L : List.length (sanitize_filename p nm) <= 200)
    by (unfold sanitize_filename; apply firstn_le_length).
  split.
  - split.
    + intros E. rewrite <- E. split; [|exact L].
      intros c Hc. eapply sanitize_clean, Hc.
    + intros [C Ln]. apply sanitize_clean_name; assumption.
  - apply sanitize_clean_name; [|exact L].
    intros c Hc. eapply sanitize_clean, Hc.
Qed.

(** ** Payloads *)

Lemma payload_slice (f : bytes) (e : entry) :
  payload f e = slice f (N.to_nat (offset e)) (N.to_nat (size e)).
Proof. reflexivity. Qed.

(** X3: the bytes extracted for an entry are the block of the archive
    that starts at its offset, cut at the end of the archive: as many
    bytes as the size field says when the archive holds them, fewer
    otherwise, and none when the offset is at or past the end.  The run
    still writes the file with what was read and its [OK] line reports
    the size field, not the number of bytes written. *)
Theorem payload_is_clipped_to_the_archive :
  (forall f e,
     List.length (payload f e)
     = Nat.min (N.to_nat (size e)) (List.length f - N.to_nat (offset e))
     /\ (exists pre post,
           f = pre ++ payload f e ++ post
           /\ (N.to_nat (offset e) <= List.length f ->
               List.length pre = N.to_nat (offset e)))
     /\ (List.length f <= N.to_nat (offset e) -> payload f e = []))
  /\ (forall h out_dir f e rest fs log fs1 fs2,
        offset e <> 0%N -> size e <> 0%N ->
        sanitize_filename (os h) (name e) <> [] ->
        makedirs h
          (path_dirname h
             (path_join h out_dir (sanitize_filename (os h) (name e)))) fs
        = (fs1, None) ->
        write_file h (path_join h out_dir (sanitize_filename (os h) (name e)))
          (slice f (N.to_nat (offset e)) (N.to_nat (size e))) fs1
        = (fs2, None) ->
        extract_entries h out_dir f (e :: rest) fs log
        = extract_entries h out_dir f rest fs2
            (log ++ [LogOk (sanitize_filename (os h) (name e)) (size e)])).
Proof.
  split.
  - intros f e. rewrite payload_slice.
    set (p := N.to_nat (offset e)). set (n := N.to_nat (size e)).
    split; [apply length_slice | split].
    + exists (firstn p f), (skipn n (skipn p f)). split.
      * unfold slice. rewrite (firstn_skipn n (skipn p f)).
        symmetry. apply firstn_skipn.
      * intros L. apply firstn_length_le, L.
    + intros L. unfold slice. rewrite skipn_all2 by exact L.
      apply firstn_nil.
  - intros h out_dir f e rest fs log fs1 fs2 Ho Hs Hn Mk Wr.
    simpl extract_entries.
    apply N.eqb_neq in Ho, Hs. rewrite Ho, Hs. simpl orb. cbv iota.
    destruct (sanitize_filename (os h) (name e)) as [|c safe] eqn:Sf;
      [congruence|].
    rewrite Mk. unfold write_entry. rewrite payload_slice, Wr. reflexivity.
Qed.

Lemma payload_is_clipped_to_the_archive_witness :
  extract_entries (mem_host no_fault no_fault) (lit "out") past_end_archive
    [Entry (lit "a.bin") 9999 3] empty_fs []
  = extract_entries (mem_host no_fault no_fault) (lit "out") past_end_archive
      [] (MemFS 2 [lit "out"] [(lit "out/a.bin", [])])
      ([] ++ [LogOk (lit "a.bin") 3]).
Proof.
  apply (proj2 payload_is_clipped_to_the_archive
           (mem_host no_fault no_fault) (lit "out") past_end_archive
           (Entry (lit "a.bin") 9999 3) [] empty_fs []
           (MemFS 1 [lit "out"] []));
    try discriminate; vm_compute; reflexivity.
Defined.

(** ** The loop body read off the layout *)

Lemma pass_at_functional (decode : bytes -> str) (f : bytes) (pos : nat)
    (r1 r2 : pass) :
  pass_at decode f pos r1 -> pass_at decode f pos r2 -> r1 = r2.
Proof.
  intros H1 H2. inversion H1; inversion H2; subst; try lia; congruence.
Qed.

Lemma loop_body_is (decode : bytes -> str) (f : bytes) (pos : nat) (r : pass) :
  pass_at decode f pos r -> loop_body decode f pos = r.
Proof.
  intros H. eapply pass_at_functional; [apply loop_body_spec | exact H].
Qed.

Lemma slice_app_l (f g : bytes) (p n : nat) :
  p + n <= List.length f -> slice (f ++ g) p n = slice f p n.
Proof.
  intros L. unfold slice. rewrite skipn_app, firstn_app, length_skipn.
  replace (p - List.length f) with 0 by lia.
  replace (n - (List.length f - p)) with 0 by lia.
  simpl. apply app_nil_r.
Qed.

Lemma next_cursor_full (f : bytes) (pos : nat) :
  pos + 268 <= List.length f ->
  next_cursor f pos
  = if bytes_eqb (slice f (pos + 264) 4) UEND then pos + 268 else pos + 264.
Proof.
  intros L. unfold next_cursor.
  pose proof (length_slice f (pos + 264) 4).
  destruct (bytes_eqb _ _); lia.
Qed.

Lemma next_cursor_shift (pre g : bytes) (d k : nat) :
  List.length pre = d ->
  next_cursor (pre ++ g) (d + k) = d + next_cursor g k.
Proof.
  intros L. unfold next_cursor.
  replace (d + k + 264) with (d + (k + 264)) by lia.
  rewrite slice_app_at by exact L.
  destruct (bytes_eqb _ _); lia.
Qed.

Lemma loop_body_shift (decode : bytes -> str) (pre g : bytes) (d k : nat) :
  List.length pre = d ->
  loop_body decode (pre ++ g) (d + k) = shift_pass d (loop_body decode g k).
Proof.
  intros L. apply loop_body_is.
  assert (Ln : List.length (pre ++ g) = d + List.length g)
    by (rewrite length_app; lia).
  assert (Sl : slice (pre ++ g) (d + k) 256 = slice g k 256)
    by (apply slice_app_at, L).
  destruct (loop_body_spec decode g k) as [H | H V | H V H' | off sz H V U];
    simpl shift_pass.
  - apply pass_short_slot. lia.
  - rewrite <- Sl. apply pass_rejected_name; [lia | rewrite Sl; exact V].
  - apply pass_short_pair; [lia | rewrite Sl; exact V | lia].
  - rewrite <- Sl, <- (next_cursor_shift pre g k L).
    apply pass_record; [lia | rewrite Sl; exact V |].
    replace (d + k + 256) with (d + (k + 256)) by lia.
    rewrite slice_app_at by exact L. exact U.
Qed.

Lemma loop_run_shift (decode : bytes -> str) (pre g : bytes) (d k : nat)
    (es : list entry) (pr : list log_line) :
  List.length pre = d ->
  loop_run decode g k es pr -> loop_run decode (pre ++ g) (d + k) es pr.
Proof.
  intros L. induction 1 as [k pr E | k e k' more pr E R IH].
  - apply run_leave. rewrite loop_body_shift, E by exact L. reflexivity.
  - eapply run_append; [|exact IH].
    rewrite loop_body_shift, E by exact L. reflexivity.
Qed.

(** X4: the directory is read from offset 16 wherever the magic was
    found.  Two archives that both hold the magic in their first 64 bytes
    and differ only in their first 16 bytes both pass the magic check and
    get the same table, the one the loop reads from the bytes after the
    header; each run then extracts that table from its own archive. *)
Theorem table_ignores_the_header : forall h decode h1 h2 body out_dir fs,
  List.length h1 = 16 -> List.length h2 = 16 ->
  occurs_in HEADER_MAGIC (firstn 64 (h1 ++ body)) ->
  occurs_in HEADER_MAGIC (firstn 64 (h2 ++ body)) ->
  exists es pr,
    loop_run decode body 0 es pr
    /\ parse_directory decode (h1 ++ body) = Some (inr (es, pr))
    /\ parse_directory decode (h2 ++ body) = Some (inr (es, pr))
    /\ extract_opened h decode (h1 ++ body) out_dir fs
       = Some (extract_entries h out_dir (h1 ++ body) es fs
                 (pr ++ [LogFound (List.length es)]))
    /\ extract_opened h decode (h2 ++ body) out_dir fs
       = Some (extract_entries h out_dir (h2 ++ body) es fs
                 (pr ++ [LogFound (List.length es)])).
Proof.
  intros h decode h1 h2 body out_dir fs L1 L2 M1 M2.
  destruct (loop_run_exists decode body 0) as (es & pr & R).
  pose proof (parse_directory_run (loop_run_shift h1 L1 R)) as P1.
  pose proof (parse_directory_run (loop_run_shift h2 L2 R)) as P2.
  exists es, pr. split; [exact R|]. split; [exact P1|]. split; [exact P2|].
  unfold extract_opened. rewrite P1, P2.
  destruct (locate_magic (h1 ++ body)) eqn:E1;
    [|apply locate_magic_none in E1; contradiction].
  destruct (locate_magic (h2 ++ body)) eqn:E2;
    [|apply locate_magic_none in E2; contradiction].
  split; reflexivity.
Qed.

Lemma table_ignores_the_header_witness :
  exists es pr,
    loop_run seven_bit_codec (record_of "a.bin" 280 3 ++ blit "xyz") 0 es pr
    /\ parse_directory seven_bit_codec
         (header ++ record_of "a.bin" 280 3 ++ blit "xyz")
       = Some (inr (es, pr))
    /\ parse_directory seven_bit_codec
         (shifted_magic_header ++ record_of "a.bin" 280 3 ++ blit "xyz")
       = Some (inr (es, pr))
    /\ extract_opened (mem_host no_fault no_fault) seven_bit_codec
         (header ++ record_of "a.bin" 280 3 ++ blit "xyz") (lit "out")
         empty_fs
       = Some (extract_entries (mem_host no_fault no_fault) (lit "out")
                 (header ++ record_of "a.bin" 280 3 ++ blit "xyz") es
                 empty_fs (pr ++ [LogFound (List.length es)]))
    /\ extract_opened (mem_host no_fault no_fault) seven_bit_codec
         (shifted_magic_header ++ record_of "a.bin" 280 3 ++ blit "xyz")
         (lit "out") empty_fs
       = Some (extract_entries (mem_host no_fault no_fault) (lit "out")
                 (shifted_magic_header ++ record_of "a.bin" 280 3
                  ++ blit "xyz") es
                 empty_fs (pr ++ [LogFound (List.length es)])).
Proof.
  apply (@table_ignores_the_header (mem_host no_fault no_fault)
           seven_bit_codec header shifted_magic_header
           (record_of "a.bin" 280 3 ++ blit "xyz") (lit "out") empty_fs);
    try reflexivity;
    eapply bytes_find_some; vm_compute; reflexivity.
Defined.

(** ** Where the directory ends *)

Lemma nth_error_skipn (f : bytes) (pos : nat) (b : byte) :
  nth_error f pos = Some b -> exists r, skipn pos f = b :: r.
Proof.
  revert f; induction pos as [|pos IH]; intros [|c f]; simpl; try discriminate.
  - intros E; injection E as ->. eauto.
  - apply IH.
Qed.

(** X5: a slot whose first byte is zero ends the directory, for any codec
    that decodes no bytes to the empty string: the name read is empty, the
    validator rejects it, and the loop leaves with the table it has,
    printing the end-of-directory line.  Zero padding after the last
    record therefore ends an archive's directory. *)
Theorem zero_slot_ends_the_directory : forall decode f pos fuel acc,
  decode [] = [] ->
  pos + 256 <= List.length f ->
  nth_error f pos = Some x00 ->
  loop_body decode f pos = Break [LogDirectoryEnd []]
  /\ read_records decode (S fuel) f pos acc
     = Some (inr (acc, [LogDirectoryEnd []])).
Proof.
  intros decode f pos fuel acc D L Z.
  assert (Nm : read_cstring decode (slice f pos 256) = []).
  { destruct (nth_error_skipn _ _ Z) as (r & E).
    unfold read_cstring, slice. rewrite E. simpl. exact D. }
  assert (B : loop_body decode f pos = Break [LogDirectoryEnd []]).
  { apply loop_body_is. rewrite <- Nm.
    apply pass_rejected_name; [exact L | rewrite Nm; reflexivity]. }
  split; [exact B | simpl; rewrite B; reflexivity].
Qed.

Lemma zero_slot_ends_the_directory_witness :
  loop_body seven_bit_codec zero_padded_archive 280
  = Break [LogDirectoryEnd []]
  /\ read_records seven_bit_codec 1 zero_padded_archive 280
       [Entry (lit "a.bin") 280 3]
     = Some (inr ([Entry (lit "a.bin") 280 3], [LogDirectoryEnd []])).
Proof.
  apply (@zero_slot_ends_the_directory seven_bit_codec zero_padded_archive
           280 0 [Entry (lit "a.bin") 280 3]);
    [reflexivity | vm_compute; lia | reflexivity].
Defined.

Lemma loop_run_rejected_room (decode : bytes -> str) (f : bytes) (pos : nat)
    (es : list entry) (pr : list log_line) :
  loop_run decode f pos es pr -> pr <> [] -> pos + 256 <= List.length f.
Proof.
  intros R N. inversion R as [? ? E | ? e p1 more ? E R']; subst.
  - pose proof (loop_body_spec decode f pos) as H. rewrite E in H.
    inversion H; subst; congruence || lia.
  - destruct (loop_body_append _ _ _ E) as (L & _). lia.
Qed.

Lemma loop_run_extended (decode : bytes -> str) (f g : bytes) (pos : nat)
    (es : list entry) (pr : list log_line) :
  loop_run decode f pos es pr -> pr <> [] ->
  loop_run decode (f ++ g) pos es pr.
Proof.
  induction 1 as [pos pr E | pos e p1 more pr E R IH]; intros N.
  - apply run_leave. apply loop_body_is.
    pose proof (loop_body_spec decode f pos) as H. rewrite E in H.
    inversion H as [L | L V | L V L' | ]; subst; try congruence.
    rewrite <- (slice_app_l f g pos 256) by lia.
    apply pass_rejected_name.
    + rewrite length_app. lia.
    + rewrite slice_app_l by lia. exact V.
  - eapply run_append; [|exact (IH N)].
    destruct (loop_body_append _ _ _ E) as (L & V & Nm & U & ->).
    pose proof (loop_run_rejected_room R N) as Room.
    pose proof (next_cursor_bounds f pos L) as B.
    apply loop_body_is.
    assert (C : next_cursor (f ++ g) pos = next_cursor f pos).
    { unfold next_cursor. rewrite slice_app_l by lia. reflexivity. }
    rewrite <- C, <- (entry_eta e), Nm.
    rewrite <- (slice_app_l f g pos 256) by lia.
    apply pass_record.
    + rewrite length_app. lia.
    + rewrite slice_app_l by lia. rewrite <- Nm. exact V.
    + rewrite slice_app_l by lia. exact U.
Qed.

(** X6: when the loop left because the validator rejected a slot, bytes
    appended to the archive change nothing: the longer archive parses to
    the same table and prints the same line. *)
Theorem rejected_slot_fixes_the_table : forall decode f g es nm,
  parse_directory decode f = Some (inr (es, [LogDirectoryEnd nm])) ->
  parse_directory decode (f ++ g) = Some (inr (es, [LogDirectoryEnd nm])).
Proof.
  intros decode f g es nm P. apply parse_directory_inv in P.
  apply parse_directory_run, loop_run_extended; [exact P | discriminate].
Qed.

Lemma rejected_slot_fixes_the_table_witness :
  parse_directory seven_bit_codec (zero_padded_archive ++ blit "more")
  = Some (inr ([Entry (lit "a.bin") 280 3], [LogDirectoryEnd []])).
Proof.
  apply (@rejected_slot_fixes_the_table seven_bit_codec zero_padded_archive
           (blit "more") [Entry (lit "a.bin") 280 3] []).
  vm_compute. reflexivity.
Defined.

(** ** The table against the layout of the archive *)

Lemma le32_bounded (b0 b1 b2 b3 : byte) :
  (le32 b0 b1 b2 b3 < 4294967296)%N.
Proof.
  unfold le32.
  pose proof (Byte.to_N_bounded b0). pose proof (Byte.to_N_bounded b1).
  pose proof (Byte.to_N_bounded b2). pose proof (Byte.to_N_bounded b3).
  lia.
Qed.

Lemma unpack_bounded (data : bytes) (a b : N) :
  struct_unpack_II data = inr (a, b) ->
  (a < 4294967296)%N /\ (b < 4294967296)%N.
Proof.
  intros H.
  do 8 (destruct data as [|? data]; [discriminate H|]).
  destruct data; [|discriminate H].
  simpl in H. injection H as <- <-. split; apply le32_bounded.
Qed.

Lemma loop_run_laid_out (decode : bytes -> str) (f : bytes) (pos : nat)
    (es : list entry) (pr : list log_line) :
  loop_run decode f pos es pr -> laid_out decode f pos es.
Proof.
  induction 1 as [pos pr E | pos e p1 more pr E R IH]; simpl; [exact I|].
  destruct (loop_body_append _ _ _ E) as (L & V & Nm & U & ->).
  split; [repeat split; assumption|].
  destruct more as [|e' more]; [exact I|].
  inversion R as [| ? ? p2 ? ? E' R']; subst.
  destruct (loop_body_append _ _ _ E') as (L' & _).
  pose proof (next_cursor_bounds f pos L).
  rewrite <- next_cursor_full by lia. exact IH.
Qed.

(** X7: the table is read off the archive record by record.  The first
    entry is the record at offset 16; an entry that is followed by another
    has that one 268 bytes further when the tag [UEND] follows its pair
    and 264 bytes further otherwise; each record lies within the archive,
    its name is the decoded slot, and its offset and size are the two
    little-endian 32-bit fields after the slot, both below [2^32].  What
    the leaving pass printed is nothing or the one end-of-directory
    line. *)
Theorem table_follows_the_layout : forall decode f es pr,
  parse_directory decode f = Some (inr (es, pr)) ->
  laid_out decode f START_OFFSET es
  /\ Forall (fun e => (offset e < 4294967296)%N /\ (size e < 4294967296)%N) es
  /\ (pr = [] \/ exists nm, pr = [LogDirectoryEnd nm]).
Proof.
  intros decode f es pr P. apply parse_directory_inv in P.
  split; [apply loop_run_laid_out with (pr := pr), P | split].
  - clear -P. induction P as [pos pr E | pos e p1 more pr E R IH];
      constructor; [|exact IH].
    destruct (loop_body_append _ _ _ E) as (_ & _ & _ & U & _).
    eapply unpack_bounded, U.
  - clear -P. induction P as [pos pr E | pos e p1 more pr E R IH]; [|exact IH].
    pose proof (loop_body_spec decode f pos) as H. rewrite E in H.
    inversion H; subst; eauto.
Qed.

Lemma table_follows_the_layout_witness :
  laid_out seven_bit_codec two_file_archive START_OFFSET
    [Entry (lit "a.bin") 548 3; Entry (lit "dir\b.txt") 551 5]
  /\ Forall (fun e => (offset e < 4294967296)%N /\ (size e < 4294967296)%N)
       [Entry (lit "a.bin") 548 3; Entry (lit "dir\b.txt") 551 5]
  /\ (@nil log_line = []
      \/ exists nm, @nil log_line = [LogDirectoryEnd nm]).
Proof.
  apply (@table_follows_the_layout seven_bit_codec two_file_archive).
  vm_compute. reflexivity.
Defined.

(** ** Parsing a well-formed directory *)

Lemma render_first_pass (decode : bytes -> str) (r : raw_record) (e : entry)
    (tail : bytes) :
  reads_as decode r e ->
  loop_body decode (render r ++ tail) 0
  = Append e (next_cursor (render r ++ tail) 0)
  /\ List.length (raw_slot r ++ raw_pair r) = 264
  /\ slice (render r ++ tail) 264 4
     = firstn 4 ((if raw_tag r then UEND else []) ++ tail).
Proof.
  intros (Ls & Nm & V & U).
  pose proof (unpack_length _ U) as Lp.
  assert (L264 : List.length (raw_slot r ++ raw_pair r) = 264)
    by (rewrite length_app; lia).
  assert (F : render r ++ tail
              = raw_slot r ++ raw_pair r
                ++ (if raw_tag r then UEND else []) ++ tail).
  { unfold render. rewrite <- !app_assoc. reflexivity. }
  assert (S0 : slice (render r ++ tail) 0 256 = raw_slot r)
    by (rewrite F; apply slice_whole_prefix, Ls).
  assert (S1 : slice (render r ++ tail) (0 + 256) 8 = raw_pair r).
  { rewrite F. change (0 + 256) with (256 + 0).
    rewrite slice_app_at by exact Ls. apply slice_whole_prefix, Lp. }
  split; [|split; [exact L264|]].
  - apply loop_body_is. rewrite <- (entry_eta e), Nm, <- S0.
    apply pass_record.
    + rewrite F, !length_app. lia.
    + rewrite S0, <- Nm. exact V.
    + rewrite S1. exact U.
  - rewrite F, app_assoc. change 264 with (264 + 0).
    rewrite slice_app_at by exact L264. reflexivity.
Qed.

Lemma directory_run (decode : bytes -> str) (rs : list raw_record)
    (es : list entry) (rest : bytes) :
  Forall2 (reads_as decode) rs es ->
  tags_clear rs rest ->
  List.length rest < 264
  \/ looks_like_valid_path (read_cstring decode (firstn 256 rest)) = false ->
  exists pr, loop_run decode (directory rs rest) 0 es pr.
Proof.
  intros F; induction F as [|r e rs es H F IH]; intros T E.
  - destruct (loop_body_leaves decode rest 0) as (pr & B); [exact E|].
    exists pr. apply run_leave, B.
  - simpl directory. destruct T as (Tc & T).
    destruct (IH T E) as (pr & R).
    set (tail := directory rs rest) in *.
    destruct (render_first_pass tail H) as (P & L264 & St).
    assert (Lf : List.length (render r ++ tail)
                 = 264 + List.length ((if raw_tag r then UEND else []) ++ tail)).
    { unfold render. rewrite <- !app_assoc, app_assoc, length_app. lia. }
    assert (Sh : forall pre, render r ++ tail = pre ++ tail ->
                 next_cursor (render r ++ tail) 0 = List.length pre ->
                 exists pr', loop_run decode (render r ++ tail) 0 (e :: es) pr').
    { intros pre Ep En. exists pr. eapply run_append; [exact P|].
      rewrite En, Ep. rewrite <- (Nat.add_0_r (List.length pre)).
      apply loop_run_shift; [reflexivity | exact R]. }
    unfold next_cursor in Sh. change (0 + 264) with 264 in Sh.
    rewrite St in Sh.
    destruct (raw_tag r) eqn:Tg.
    + apply (Sh (raw_slot r ++ raw_pair r ++ UEND)).
      * unfold render. rewrite Tg, <- !app_assoc. reflexivity.
      * change (firstn 4 (UEND ++ tail)) with UEND.
        change (bytes_eqb UEND UEND) with true. cbv iota.
        rewrite app_assoc, length_app, L264. reflexivity.
    + simpl app in *. specialize (Tc eq_refl). rewrite Tc in Sh.
      destruct (Nat.le_gt_cases 4 (List.length tail)) as [L4 | L4].
      * apply (Sh (raw_slot r ++ raw_pair r)).
        -- unfold render. rewrite Tg, <- !app_assoc. reflexivity.
        -- rewrite length_firstn, L264. lia.
      * assert (es = []) as ->.
        { destruct F as [|r' e' rs' es' (Ls' & _) F']; [reflexivity|].
          exfalso. unfold tail in L4. simpl directory in L4.
          unfold render in L4. rewrite !length_app in L4. lia. }
        exists []. eapply run_append; [exact P|].
        apply run_leave, loop_body_short_slot.
        unfold next_cursor. change (0 + 264) with 264. rewrite St.
        simpl app. rewrite Tc, Lf, length_firstn. simpl app. lia.
Qed.

(** X8: an archive laid out as the format describes parses to exactly its
    records.  Take any 16-byte header, then records each made of a
    256-byte slot whose name the validator accepts, the 8 bytes of an
    offset and a size, and optionally the tag [UEND], where no record
    without a tag is followed by bytes spelling [UEND]; then the end of
    the file or a slot the validator rejects.  The table is the list of
    those records' entries, in order. *)
Theorem well_formed_directory_parses : forall decode hdr rs es rest,
  List.length hdr = 16 ->
  Forall2 (reads_as decode) rs es ->
  tags_clear rs rest ->
  List.length rest < 264
  \/ looks_like_valid_path (read_cstring decode (firstn 256 rest)) = false ->
  exists pr,
    parse_directory decode (hdr ++ directory rs rest) = Some (inr (es, pr)).
Proof.
  intros decode hdr rs es rest Lh F T E.
  destruct (@directory_run decode rs es rest F T E) as (pr & R).
  exists pr. apply parse_directory_run.
  change START_OFFSET with (16 + 0). apply loop_run_shift; assumption.
Qed.

Lemma well_formed_directory_parses_witness :
  exists pr,
    parse_directory seven_bit_codec two_file_archive
    = Some (inr ([Entry (lit "a.bin") 548 3; Entry (lit "dir\b.txt") 551 5],
                 pr)).
Proof.
  change two_file_archive
    with (header
          ++ directory
               [Raw (slot_of "a.bin") (pack_u32 548 ++ pack_u32 3) true;
                Raw (slot_of "dir\b.txt") (pack_u32 551 ++ pack_u32 5) false]
               (blit "xyzhello")).
  apply well_formed_directory_parses.
  - reflexivity.
  - repeat constructor.
  - repeat split.
  - left. vm_compute. lia.
Defined.

(** ** The extraction loop *)

Section ExtractionLoop.

Variable h : host.
Variables (out_dir : str) (f : bytes).

Local Abbreviation go := (extract_entries h out_dir f).

Lemma extract_entries_app (es1 es2 : list entry) (fs : FS h)
    (log : list log_line) :
  go (es1 ++ es2) fs log
  = match run_status (go es1 fs log) with
    | Finished => go es2 (run_fs (go es1 fs log)) (run_log (go es1 fs log))
    | _ => go es1 fs log
    end.
Proof.
  revert fs log; induction es1 as [|e es1 IH]; intros fs log; [reflexivity|].
  simpl app. simpl extract_entries.
  destruct ((offset e =? 0)%N || (size e =? 0)%N); [apply IH|].
  destruct (sanitize_filename (os h) (name e)); [apply IH|].
  destruct (makedirs h _ fs) as [fs1 [err|]]; [reflexivity|].
  destruct (write_entry h _ _ _ _ fs1) as [fs2 line]. apply IH.
Qed.

Lemma extract_entries_log (es : list entry) (fs : FS h) (log : list log_line) :
  (run_status (go es fs log) = Finished
   \/ exists err, run_status (go es fs log) = Uncaught (OSError err))
  /\ exists lines,
       run_log (go es fs log) = log ++ lines
       /\ List.length lines <= List.length es
       /\ (run_status (go es fs log) = Finished ->
           List.length lines = List.length es).
Proof.
  revert fs log; induction es as [|e es IH]; intros fs log.
  - split; [left; reflexivity|]. exists []. rewrite app_nil_r. auto.
  - assert (K : forall fs' line,
               (run_status (go es fs' (log ++ [line])) = Finished
                \/ exists err,
                     run_status (go es fs' (log ++ [line]))
                     = Uncaught (OSError err))
               /\ exists lines,
                    run_log (go es fs' (log ++ [line])) = log ++ lines
                    /\ List.length lines <= List.length (e :: es)
                    /\ (run_status (go es fs' (log ++ [line])) = Finished ->
                        List.length lines = List.length (e :: es))).
    { intros fs' line.
      destruct (IH fs' (log ++ [line])) as (St & lines & Lg & Le & Lf).
      split; [exact St|]. exists (line :: lines).
      rewrite Lg, <- app_assoc. simpl. repeat split; [lia|].
      intros F. rewrite (Lf F). reflexivity. }
    simpl extract_entries.
    destruct ((offset e =? 0)%N || (size e =? 0)%N); [apply K|].
    destruct (sanitize_filename (os h) (name e)); [apply K|].
    destruct (makedirs h _ fs) as [fs1 [err|]].
    + split; [right; exists err; reflexivity|].
      exists []. rewrite app_nil_r. simpl.
      repeat split; [lia | discriminate].
    + destruct (write_entry h _ _ _ _ fs1) as [fs2 line]. apply K.
Qed.

(** X9: the extraction loop over a table in two parts is the loop over
    the first part followed, if that finished, by the loop over the
    second part from the filesystem and log it left; if the first part
    ended in an error the second part is never started.  The loop ends
    [Finished] or with an uncaught [OSError], never otherwise; its log is
    the log it started with, extended by at most one line per entry and
    by exactly one line per entry when it finishes. *)
Theorem extraction_loop_composes :
  (forall es1 es2 fs log,
     extract_entries h out_dir f (es1 ++ es2) fs log
     = match run_status (extract_entries h out_dir f es1 fs log) with
       | Finished =>
           extract_entries h out_dir f es2
             (run_fs (extract_entries h out_dir f es1 fs log))
             (run_log (extract_entries h out_dir f es1 fs log))
       | _ => extract_entries h out_dir f es1 fs log
       end)
  /\ (forall es fs log,
        (run_status (extract_entries h out_dir f es fs log) = Finished
         \/ exists err,
              run_status (extract_entries h out_dir f es fs log)
              = Uncaught (OSError err))
        /\ exists lines,
             run_log (extract_entries h out_dir f es fs log) = log ++ lines
             /\ List.length lines <= List.length es
             /\ (run_status (extract_entries h out_dir f es fs log)
                 = Finished ->
                 List.length lines = List.length es)).
Proof. split; [exact extract_entries_app | exact extract_entries_log]. Qed.

(** X10: entries the loop skips leave no trace outside the log: the
    filesystem and the status the loop ends with are those of the loop
    over the entries that are not skipped, whatever the two logs; a table
    of skipped entries only leaves the filesystem as it was. *)
Theorem skipped_entries_change_nothing :
  (forall es fs log log',
     run_status (extract_entries h out_dir f es fs log)
     = run_status
         (extract_entries h out_dir f (filter (live (os h)) es) fs log')
     /\ run_fs (extract_entries h out_dir f es fs log)
        = run_fs
            (extract_entries h out_dir f (filter (live (os h)) es) fs log'))
  /\ (forall es fs log,
        forallb (fun e => negb (live (os h) e)) es = true ->
        run_status (extract_entries h out_dir f es fs log) = Finished
        /\ run_fs (extract_entries h out_dir f es fs log) = fs).
Proof.
  assert (A : forall es fs log log',
     run_status (go es fs log)
     = run_status (go (filter (live (os h)) es) fs log')
     /\ run_fs (go es fs log) = run_fs (go (filter (live (os h)) es) fs log')).
  { induction es as [|e es IH]; intros fs log log'; [split; reflexivity|].
    simpl filter. destruct (live (os h) e) eqn:Lv; unfold live in Lv;
      simpl extract_entries;
      destruct ((offset e =? 0)%N || (size e =? 0)%N); simpl in Lv;
      try discriminate Lv; try apply IH;
      destruct (sanitize_filename (os h) (name e)) as [|c safe];
      try discriminate Lv; try apply IH.
    destruct (makedirs h _ fs) as [fs1 [err|]]; [split; reflexivity|].
    unfold write_entry. destruct (write_file h _ _ fs1) as [fs2 [err|]];
      apply IH. }
  split; [exact A|].
  intros es fs log Sk. destruct (A es fs log log) as (St & Fs).
  assert (E : filter (live (os h)) es = []).
  { clear -Sk. induction es as [|e es IH]; [reflexivity|].
    simpl in Sk. apply andb_true_iff in Sk as (Se & Sk). simpl.
    destruct (live (os h) e); [discriminate Se | auto]. }
  rewrite E in St, Fs. split; assumption.
Qed.

Lemma extract_entries_served (es : list entry) (fs : FS h)
    (log : list log_line) :
  served h out_dir f fs (run_fs (go es fs log)).
Proof.
  revert fs log.
  induction es as [|e es IH]; intros fs log; [apply served_nothing|].
  simpl extract_entries.
  destruct ((offset e =? 0)%N || (size e =? 0)%N); [apply IH|].
  pose proof (@sanitize_clean (os h) (name e)) as C.
  assert (L : List.length (sanitize_filename (os h) (name e)) <= 200)
    by (unfold sanitize_filename; apply firstn_le_length).
  destruct (sanitize_filename (os h) (name e)) as [|c safe]; [apply IH|].
  assert (Sc : safe_component (c :: safe))
    by (repeat split; [discriminate | exact L | exact C]).
  apply served_makedirs with (s := c :: safe); [exact Sc|].
  destruct (makedirs h _ fs) as [fs1 [err|]]; simpl fst;
    [apply served_nothing|].
  apply served_write
    with (s := c :: safe) (p := N.to_nat (offset e)) (n := N.to_nat (size e));
    [exact Sc|].
  rewrite <- payload_slice. unfold write_entry.
  destruct (write_file h _ _ fs1) as [fs2 [err|]]; simpl fst; apply IH.
Qed.

(** X11: the extraction loop asks the host for two things only: to make
    the directory of [out_dir/s] and to write a block of the archive to
    [out_dir/s], where [s] is a sanitized name: not empty, at most 200
    characters, with no separator and no other character of the replaced
    class.  The filesystem the loop ends with is reached from the one it
    started with by such calls alone. *)
Theorem extraction_serves_safe_paths_only : forall es fs log,
  served h out_dir f fs (run_fs (extract_entries h out_dir f es fs log)).
Proof. exact extract_entries_served. Qed.

End ExtractionLoop.

(** ** The run as a whole *)

Lemma locate_magic_some (f : bytes) (i : nat) :
  locate_magic f = Some i -> occurs_in HEADER_MAGIC (firstn 64 f).
Proof.
  unfold locate_magic, f_read.
  change (slice f 0 64) with (firstn 64 f).
  change (slice f 0 (List.length HEADER_MAGIC)) with (firstn 10 f).
  destruct (bytes_eqb (firstn 10 f) HEADER_MAGIC) eqn:M; simpl negb; cbv iota.
  - intros _. apply bytes_eqb_eq in M.
    exists [], (skipn 10 (firstn 64 f)).
    rewrite <- M at 1.
    replace (firstn 10 f) with (firstn 10 (firstn 64 f))
      by (rewrite firstn_firstn; reflexivity).
    symmetry. apply firstn_skipn.
  - destruct (bytes_find HEADER_MAGIC (firstn 64 f)) as [j|] eqn:F;
      [|discriminate].
    intros _. eapply bytes_find_some, F.
Qed.

Lemma extract_opened_cases (h : host) (decode : bytes -> str) (f : bytes)
    (out_dir : str) (fs : FS h) :
  exists r,
    extract_opened h decode f out_dir fs = Some r
    /\ served h out_dir f fs (run_fs r)
    /\ ((run_status r = SystemExit
         /\ ~ occurs_in HEADER_MAGIC (firstn 64 f)
         /\ run_fs r = fs /\ run_log r = [])
        \/ (occurs_in HEADER_MAGIC (firstn 64 f)
            /\ (run_status r = Finished
                \/ exists err, run_status r = Uncaught (OSError err))
            /\ exists es pr lines,
                 parse_directory decode f = Some (inr (es, pr))
                 /\ run_log r = pr ++ [LogFound (List.length es)] ++ lines
                 /\ List.length lines <= List.length es
                 /\ (run_status r = Finished ->
                     List.length lines = List.length es))).
Proof.
  unfold extract_opened. destruct (locate_magic f) as [i|] eqn:Lm.
  - destruct (parse_directory_total decode f) as (es & pr & P). rewrite P.
    eexists. split; [reflexivity|].
    split; [apply extract_entries_served|]. right.
    split; [eapply locate_magic_some, Lm|].
    destruct (extract_entries_log h out_dir f es fs
                (pr ++ [LogFound (List.length es)]))
      as (St & lines & Lg & Le & Lf).
    split; [exact St|]. exists es, pr, lines.
    rewrite Lg, <- app_assoc. auto.
  - eexists. split; [reflexivity|]. split; [apply served_nothing|]. left.
    apply locate_magic_none in Lm. auto.
Qed.

(** X12: [extract] returns on every archive, host and codec, and ends in
    one of three ways: finished, [SystemExit], or an uncaught [OSError];
    never with an error from unpacking.  It ends in [SystemExit] only
    when the magic is missing, and then nothing was logged.  When it
    finishes the magic is in the first 64 bytes and the log is what the
    directory loop printed, the line that counts the table, and one line
    for every entry of the table.  After making the output directory the
    run asks the host only for directories and files of sanitized names
    under it. *)
Theorem extract_always_returns : forall h decode f out_dir fs,
  exists r,
    extract h decode f out_dir fs = Some r
    /\ (run_status r = Finished \/ run_status r = SystemExit
        \/ exists err, run_status r = Uncaught (OSError err))
    /\ (run_status r = SystemExit ->
        ~ occurs_in HEADER_MAGIC (firstn 64 f) /\ run_log r = [])
    /\ (run_status r = Finished ->
        occurs_in HEADER_MAGIC (firstn 64 f)
        /\ exists es pr lines,
             parse_directory decode f = Some (inr (es, pr))
             /\ run_log r = pr ++ [LogFound (List.length es)] ++ lines
             /\ List.length lines = List.length es)
    /\ served h out_dir f (fst (makedirs h out_dir fs)) (run_fs r).
Proof.
  intros h decode f out_dir fs. unfold extract.
  destruct (makedirs h out_dir fs) as [fs0 [err|]]; simpl fst.
  - eexists. split; [reflexivity|]. simpl.
    repeat split; try discriminate; eauto. apply served_nothing.
  - destruct (extract_opened_cases h decode f out_dir fs0)
      as (r & E & Sv & [(St & Nm & _ & Lg)
                       | (Oc & St & es & pr & lines & P & Lg & Le & Lf)]).
    + exists r. rewrite St. repeat split; auto; discriminate.
    + exists r. split; [exact E|]. split; [tauto|]. split; [|split].
      * intros X. destruct St as [St | (err & St)]; congruence.
      * intros X. split; [exact Oc|]. exists es, pr, lines. auto.
      * exact Sv.
Qed.

Lemma extract_always_returns_aux (h : host) (decode : bytes -> str)
    (f : bytes) (out_dir : str) (fs : FS h) :
  exists r,
    extract h decode f out_dir fs = Some r
    /\ (exit_code (run_status r) = 0%N ->
        occurs_in HEADER_MAGIC (firstn 64 f))
    /\ (occurs_in HEADER_MAGIC (firstn 64 f) ->
        (forall p fs', snd (makedirs h p fs') = None) ->
        exit_code (run_status r) = 0%N).
Proof.
  unfold extract.
  destruct (makedirs h out_dir fs) as [fs0 [err|]] eqn:M.
  - eexists. split; [reflexivity|]. simpl. split; [discriminate|].
    intros _ Mk. specialize (Mk out_dir fs). rewrite M in Mk. discriminate Mk.
  - destruct (extract_opened_cases h decode f out_dir fs0)
      as (r & E & _ & [(St & Nm & _) | (Oc & St & es & pr & _ & P & _)]).
    + exists r. rewrite St. split; [exact E|]. simpl.
      split; [discriminate | contradiction].
    + exists r. split; [exact E|]. split; [auto|]. intros _ Mk.
      unfold extract_opened in E.
      destruct (locate_magic f) eqn:Lm;
        [|apply locate_magic_none in Lm; contradiction].
      rewrite P in E.
      injection E as <-.
      destruct (extract_entries_finishes h out_dir f Mk es fs0
                  (pr ++ [LogFound (List.length es)])) as (F & _).
      rewrite F. reflexivity.
Qed.

(** ** The command line *)

Lemma extract_path_opened (h : host) (decode : bytes -> str)
    (open_rb : str -> errno + bytes) (input_file out_dir : str) (fs : FS h)
    (f : bytes) :
  open_rb input_file = inr f ->
  extract_path h decode open_rb input_file out_dir fs
  = extract h decode f out_dir fs.
Proof.
  intros O. unfold extract_path, extract. rewrite O.
  destruct (makedirs h out_dir fs) as [fs0 [err|]]; reflexivity.
Qed.

(** X13: the command line.  With no argument the program prints its usage
    and exits with status 1 without touching the filesystem.  Otherwise
    it runs [extract] on the file named by the first argument, into the
    directory named by the second argument or into [output] when there is
    none, ignoring further arguments; the output directory is made before
    the archive is opened, so it is made even when the archive cannot be
    opened.  The exit status is 0 only if the archive could be opened and
    its first 64 bytes hold the magic; and it is 0 whenever that is so and
    the host makes every directory it is asked for, whatever happens to
    the writes. *)
Theorem main_exit_status : forall h decode open_rb argv fs,
  exists o,
    main h decode open_rb argv fs = Some o
    /\ (List.length argv < 2 -> o = MainUsage h)
    /\ (forall f,
          2 <= List.length argv ->
          open_rb (nth 1 argv []) = inr f ->
          option_map (@MainRan h)
            (extract h decode f
               (if List.length argv <? 3 then lit "output" else nth 2 argv [])
               fs)
          = Some o)
    /\ (forall err,
          2 <= List.length argv ->
          open_rb (nth 1 argv []) = inl err ->
          exists r,
            o = MainRan r
            /\ run_fs r
               = fst (makedirs h
                        (if List.length argv <? 3 then lit "output"
                         else nth 2 argv []) fs)
            /\ main_exit_code o = 1%N)
    /\ (main_exit_code o = 0%N ->
        2 <= List.length argv
        /\ exists f,
             open_rb (nth 1 argv []) = inr f
             /\ occurs_in HEADER_MAGIC (firstn 64 f))
    /\ (forall f,
          2 <= List.length argv ->
          open_rb (nth 1 argv []) = inr f ->
          occurs_in HEADER_MAGIC (firstn 64 f) ->
          (forall p fs', snd (makedirs h p fs') = None) ->
          main_exit_code o = 0%N).
Proof.
  intros h decode open_rb argv fs. unfold main.
  destruct (Nat.ltb_spec (List.length argv) 2) as [L | L].
  - exists (MainUsage h). split; [reflexivity|].
    split; [reflexivity|]. split; [intros; lia|]. split; [intros; lia|].
    split; [discriminate | intros; lia].
  - set (outdir := if List.length argv <? 3 then lit "output"
                   else nth 2 argv []).
    destruct (open_rb (nth 1 argv [])) as [err | f] eqn:O.
    + unfold extract_path. rewrite O.
      destruct (makedirs h outdir fs) as [fs0 [err'|]] eqn:M; simpl option_map;
        eexists; (split; [reflexivity|]);
        (split; [intros; lia|]);
        (split; [intros; discriminate|]);
        (split; [intros; eexists; split; [reflexivity|]; split; reflexivity|]);
        (split; [discriminate | intros; discriminate]).
    + rewrite (extract_path_opened h decode open_rb _ outdir fs O).
      destruct (extract_always_returns_aux h decode f outdir fs)
        as (r & E & Ex0 & Ok).
      rewrite E. simpl option_map. exists (MainRan r).
      split; [reflexivity|]. split; [intros; lia|].
      split; [intros f' _ O'; injection O' as <-; rewrite E; reflexivity|].
      split; [intros; discriminate|]. split.
      * intros X. split; [exact L|]. exists f. split; [reflexivity|].
        apply Ex0, X.
      * intros f' _ O' Oc Mk. injection O' as <-. apply Ok; assumption.
Qed.

(** ** The offset/size pair *)

Lemma byte_to_N_inj (x y : byte) : Byte.to_N x = Byte.to_N y -> x = y.
Proof.
  intros E. pose proof (Byte.of_to_N x) as Hx. rewrite E in Hx.
  rewrite Byte.of_to_N in Hx. congruence.
Qed.

Lemma le32_inj (a0 a1 a2 a3 b0 b1 b2 b3 : byte) :
  le32 a0 a1 a2 a3 = le32 b0 b1 b2 b3 ->
  a0 = b0 /\ a1 = b1 /\ a2 = b2 /\ a3 = b3.
Proof.
  unfold le32. intros E.
  pose proof (Byte.to_N_bounded a0). pose proof (Byte.to_N_bounded a1).
  pose proof (Byte.to_N_bounded a2). pose proof (Byte.to_N_bounded a3).
  pose proof (Byte.to_N_bounded b0). pose proof (Byte.to_N_bounded b1).
  pose proof (Byte.to_N_bounded b2). pose proof (Byte.to_N_bounded b3).
  repeat split; apply byte_to_N_inj; lia.
Qed.

Lemma byte_of_N_value (n : N) : Byte.to_N (byte_of_N n) = (n mod 256)%N.
Proof.
  unfold byte_of_N. destruct (Byte.of_N (n mod 256)) as [b|] eqn:E.
  - apply Byte.to_of_N, E.
  - apply Byte.of_N_None_iff in E.
    pose proof (N.mod_upper_bound n 256). lia.
Qed.

Lemma le32_pack (n : N) :
  (n < 4294967296)%N ->
  match pack_u32 n with
  | [b0; b1; b2; b3] => le32 b0 b1 b2 b3 = n
  | _ => False
  end.
Proof.
  intros B. unfold pack_u32. simpl map. cbv beta iota. unfold le32.
  rewrite !byte_of_N_value.
  pose proof (N.div_mod n 256). pose proof (N.mod_upper_bound n 256).
  pose proof (N.div_mod (n / 256) 256).
  pose proof (N.mod_upper_bound (n / 256) 256).
  pose proof (N.div_mod (n / 65536) 256).
  pose proof (N.mod_upper_bound (n / 65536) 256).
  assert (n / 65536 = n / 256 / 256)%N
    by (rewrite N.Div0.div_div; reflexivity).
  assert (n / 16777216 = n / 65536 / 256)%N
    by (rewrite N.Div0.div_div; reflexivity).
  assert ((n / 16777216) mod 256 = n / 16777216)%N.
  { apply N.mod_small. apply N.Div0.div_lt_upper_bound. lia. }
  lia.
Qed.

(** X14: the offset/size pair is read as two little-endian unsigned
    32-bit integers, one to one: unpacking fails on any block that is not
    8 bytes long and never on one that is; two 8-byte blocks that read as
    the same pair are the same block; and every pair of values below
    [2^32] is what the block of their little-endian encodings reads as. *)
Theorem pair_reading_is_one_to_one :
  (forall data,
     struct_unpack_II data = inl StructError <-> List.length data <> 8)
  /\ (forall d d' x,
        struct_unpack_II d = inr x -> struct_unpack_II d' = inr x -> d = d')
  /\ (forall a b,
        (a < 4294967296)%N -> (b < 4294967296)%N ->
        struct_unpack_II (pack_u32 a ++ pack_u32 b) = inr (a, b)).
Proof.
  split; [|split].
  - intros data. split.
    + intros E L. destruct (unpack_eight data L) as (a & b & U). congruence.
    + intros L. destruct (struct_unpack_II data) as [[|e] | x] eqn:U.
      * reflexivity.
      * exfalso. clear -U.
        do 8 (destruct data as [|? data]; [discriminate U|]).
        destruct data; discriminate U.
      * exfalso. apply L. eapply unpack_length, U.
  - intros d d' [a b] U U'.
    do 8 (destruct d as [|? d]; [discriminate U|]).
    destruct d; [|discriminate U].
    do 8 (destruct d' as [|? d']; [discriminate U'|]).
    destruct d'; [|discriminate U'].
    simpl in U, U'. injection U as Ea Eb. injection U' as Ea' Eb'.
    rewrite <- Ea' in Ea. rewrite <- Eb' in Eb.
    apply le32_inj in Ea as (-> & -> & -> & ->).
    apply le32_inj in Eb as (-> & -> & -> & ->). reflexivity.
  - intros a b Ha Hb.
    pose proof (le32_pack Ha) as Pa. pose proof (le32_pack Hb) as Pb.
    unfold pack_u32 in *. simpl map in *. simpl app. simpl struct_unpack_II.
    rewrite Pa, Pb. reflexivity.
Qed.
